(** * vite-tsconfig-paths: a shallow embedding of [src/index.ts]

    The plugin resolves bare import specifiers against the [paths] and
    [baseUrl] of the tsconfig files of a workspace.  This development
    embeds the plugin's own logic (project discovery and ordering, the
    inclusion filter, the per-project resolver with its cache, and the
    [resolveId] hook) and proves the properties its specification states.

    Strings are Rocq strings (one [ascii] per code unit); a JavaScript
    [string | undefined] is an [option string].  The collaborators that are
    not part of the plugin (the crawl service, the tsconfig loaders, the
    alias matcher of tsconfig-paths, Vite's own resolver and the glob
    compiler) are the fields of an environment record [Env]; they are
    deterministic functions, as tsconfig files and the file system are taken
    to be fixed for a session.  Node's POSIX path functions and the fragment
    of globrex the examples need are written out. *)

From Stdlib Require Import Ascii String.
From stdpp Require Import base option list strings gmap sorting.

Local Open Scope string_scope.
Local Open Scope list_scope.

(** ** JavaScript strings and truthiness *)

Module JS.

(** [s.startsWith(p)] *)
Fixpoint startsWith (s p : string) {struct p} : bool :=
  match p with
  | EmptyString => true
  | String c p' =>
      match s with
      | EmptyString => false
      | String d s' => if Ascii.eqb c d then startsWith s' p' else false
      end
  end.

(** [s.slice(n)] for [n >= 0] *)
Fixpoint slice (s : string) (n : nat) {struct n} : string :=
  match n, s with
  | O, _ => s
  | S _, EmptyString => EmptyString
  | S n', String _ s' => slice s' n'
  end.

(** [s.slice(0, n)] for [n >= 0] *)
Fixpoint take (s : string) (n : nat) {struct n} : string :=
  match n, s with
  | O, _ => EmptyString
  | S _, EmptyString => EmptyString
  | S n', String c s' => String c (take s' n')
  end.

(** [s.endsWith(suf)] *)
Definition endsWith (s suf : string) : bool :=
  let n := String.length s in
  let m := String.length suf in
  Nat.leb m n && String.eqb (slice s (n - m)) suf.

(** [s.includes(sub)]; this is also [/sub/.test(s)] for a literal [sub]. *)
Fixpoint includes (s sub : string) : bool :=
  startsWith s sub
  || match s with
     | EmptyString => false
     | String _ s' => includes s' sub
     end.

(** [s.split(sep)] for a separator of one character *)
Fixpoint split (sep : ascii) (s : string) : list string :=
  match s with
  | EmptyString => [EmptyString]
  | String c s' =>
      if Ascii.eqb c sep then EmptyString :: split sep s'
      else match split sep s' with
           | [] => [String c EmptyString]
           | h :: t => String c h :: t
           end
  end.

(** [parts.join(sep)] *)
Fixpoint join (sep : string) (parts : list string) : string :=
  match parts with
  | [] => EmptyString
  | [p] => p
  | p :: rest => p +:+ sep +:+ join sep rest
  end.

(** Truthiness of a [string | undefined]: [undefined] and the empty
    string are falsy. *)
Definition truthy (v : option string) : bool :=
  match v with
  | Some EmptyString => false
  | Some _ => true
  | None => false
  end.

(** Truthiness of a [boolean | undefined]. *)
Definition truthyb (v : option bool) : bool :=
  match v with
  | Some b => b
  | None => false
  end.

(** A regular expression's [.] matches any character but a line
    terminator. *)
Definition lineTerminator (c : ascii) : bool :=
  Ascii.eqb c "010"%char || Ascii.eqb c "013"%char.

(** One step of a stable sort: [x], which stood before the elements of
    [sorted], goes before the first of them that the comparator does not
    put before it, so it stays ahead of those it ties with. *)
Fixpoint sortInsert {A} (compare : A -> A -> Z) (x : A) (sorted : list A)
  : list A :=
  match sorted with
  | [] => [x]
  | y :: rest =>
      if Z.leb (compare x y) 0 then x :: sorted
      else y :: sortInsert compare x rest
  end.

(** [array.sort(compare)].  The sort of an array is stable: elements
    that compare as equal keep their order.  For a comparator that orders
    consistently there is one such result, the one insertion gives. *)
Definition sort {A} (compare : A -> A -> Z) (array : list A) : list A :=
  foldr (sortInsert compare) [] array.

End JS.

(** ** Node's [path.posix] *)

Module Posix.

(** The segment loop of [normalizeString]: empty and [.] segments are
    dropped, [..] removes the segment before it, or is kept when there is
    none and [allowAboveRoot] holds.  [res] is the result so far, last
    segment first. *)
Fixpoint normalizeLoop (allowAboveRoot : bool) (res segs : list string)
  : list string :=
  match segs with
  | [] => rev res
  | seg :: rest =>
      if String.eqb seg "" || String.eqb seg "." then
        normalizeLoop allowAboveRoot res rest
      else if String.eqb seg ".." then
        match res with
        | last :: res' =>
            if String.eqb last ".." then
              normalizeLoop allowAboveRoot
                (if allowAboveRoot then ".." :: res else res) rest
            else normalizeLoop allowAboveRoot res' rest
        | [] =>
            normalizeLoop allowAboveRoot
              (if allowAboveRoot then [".."] else []) rest
        end
      else normalizeLoop allowAboveRoot (seg :: res) rest
  end.

Definition normalizeString (path : string) (allowAboveRoot : bool) : string :=
  JS.join "/" (normalizeLoop allowAboveRoot [] (JS.split "/" path)).

(** [path.posix.isAbsolute] *)
Definition isAbsolute (path : string) : bool :=
  match path with
  | String c _ => Ascii.eqb c "/"
  | EmptyString => false
  end.

(** [path.posix.normalize] *)
Definition normalize (path : string) : string :=
  match path with
  | EmptyString => "."
  | _ =>
      let isAbs := isAbsolute path in
      let trailingSeparator := JS.endsWith path "/" in
      let p := normalizeString path (negb isAbs) in
      match p with
      | EmptyString =>
          if isAbs then "/" else if trailingSeparator then "./" else "."
      | _ =>
          let p := if trailingSeparator then p +:+ "/" else p in
          if isAbs then "/" +:+ p else p
      end
  end.

(** [path.posix.join(a, b)] *)
Definition join (a b : string) : string :=
  match a, b with
  | EmptyString, EmptyString => "."
  | EmptyString, _ => normalize b
  | _, EmptyString => normalize a
  | _, _ => normalize (a +:+ "/" +:+ b)
  end.

(** The loop of [path.posix.resolve]: the arguments are taken from the
    right, then the working directory, until an absolute one is met. *)
Fixpoint resolveArgs (args : list string) (resolvedPath : string)
  : string * bool :=
  match args with
  | [] => (resolvedPath, false)
  | path :: rest =>
      match path with
      | EmptyString => resolveArgs rest resolvedPath
      | _ =>
          let resolvedPath := path +:+ "/" +:+ resolvedPath in
          if isAbsolute path then (resolvedPath, true)
          else resolveArgs rest resolvedPath
      end
  end.

(** [path.posix.resolve(a, b)] in a process whose working directory is
    [cwd]. *)
Definition resolve (cwd a b : string) : string :=
  let '(resolvedPath, resolvedAbsolute) := resolveArgs [b; a; cwd] "" in
  let p := normalizeString resolvedPath (negb resolvedAbsolute) in
  if resolvedAbsolute then "/" +:+ p
  else match p with
       | EmptyString => "."
       | _ => p
       end.

(** The backwards scan of [path.posix.dirname], from index [i] down to
    index 1, over the characters given last first: the index of the slash
    that ends the directory part, if there is one. *)
Fixpoint dirnameScan (chars : list ascii) (i : nat) (matchedSlash : bool)
  : option nat :=
  match chars with
  | [] => None
  | c :: rest =>
      if Ascii.eqb c "/" then
        if matchedSlash then dirnameScan rest (i - 1) true else Some i
      else dirnameScan rest (i - 1) false
  end.

(** [path.posix.dirname] *)
Definition dirname (path : string) : string :=
  match path with
  | EmptyString => "."
  | String c0 tl =>
      let hasRoot := Ascii.eqb c0 "/" in
      match dirnameScan (rev (list_ascii_of_string tl))
              (String.length path - 1) true with
      | None => if hasRoot then "/" else "."
      | Some e => if hasRoot && Nat.eqb e 1 then "//" else JS.take path e
      end
  end.

End Posix.

(** ** The globrex library, on the fragment the examples need

    [globrex(glob, {extended: true})] is called without the [globstar]
    option, so every run of stars becomes the regular expression [.*].  The
    translation below covers globs made of literal characters, slashes,
    stars and question marks; brackets, braces and the extended groups
    [@( +( ?( *( !(] are outside it and give [None]. *)

Module Globrex.

Inductive Tok : Type :=
| TChar (c : ascii)   (* a character taken literally *)
| TOptSlash           (* a slash before another slash: optional *)
| TAny                (* [.] *)
| TStar.              (* [.*] *)

Definition nextIs (c : ascii) (g : list ascii) : bool :=
  match g with
  | n :: _ => Ascii.eqb n c
  | [] => false
  end.

Definition unsupported (c : ascii) : bool :=
  Ascii.eqb c "[" || Ascii.eqb c "]" || Ascii.eqb c "{" || Ascii.eqb c "}".

Definition opensGroup (c : ascii) : bool :=
  Ascii.eqb c "+" || Ascii.eqb c "@" || Ascii.eqb c "!"
  || Ascii.eqb c "?" || Ascii.eqb c "*".

(** The character loop of globrex.  [afterStar] holds right after a
    star: the stars that follow it are moved over. *)
Fixpoint tokens (afterStar : bool) (g : list ascii) : option (list Tok) :=
  match g with
  | [] => Some []
  | c :: rest =>
      if afterStar && Ascii.eqb c "*" then tokens true rest
      else if unsupported c then None
      else if opensGroup c && nextIs "(" rest then None
      else if Ascii.eqb c "/" then
        cons (if nextIs "/" rest then TOptSlash else TChar c)
          <$> tokens false rest
      else if Ascii.eqb c "?" then cons TAny <$> tokens false rest
      else if Ascii.eqb c "*" then cons TStar <$> tokens true rest
      else cons (TChar c) <$> tokens false rest
  end.

(** A match of the whole string, as the regular expression is anchored
    at both ends. *)
Fixpoint matches (ts : list Tok) (s : list ascii) {struct ts} : bool :=
  match ts with
  | [] => match s with [] => true | _ => false end
  | TChar c :: ts' =>
      match s with
      | d :: s' => Ascii.eqb c d && matches ts' s'
      | [] => false
      end
  | TOptSlash :: ts' =>
      match s with
      | d :: s' => (Ascii.eqb d "/" && matches ts' s') || matches ts' s
      | [] => matches ts' s
      end
  | TAny :: ts' =>
      match s with
      | d :: s' => negb (JS.lineTerminator d) && matches ts' s'
      | [] => false
      end
  | TStar :: ts' =>
      (fix star (s : list ascii) : bool :=
         matches ts' s
         || match s with
            | d :: s' => negb (JS.lineTerminator d) && star s'
            | [] => false
            end) s
  end.

(** [globrex(glob, {extended: true}).regex.test(path)]; a glob outside
    the fragment matches nothing here. *)
Definition test (glob path : string) : bool :=
  match tokens false (list_ascii_of_string glob) with
  | Some ts => matches ts (list_ascii_of_string path)
  | None => false
  end.

End Globrex.

(** ** The collaborators of the plugin *)

(** The successful result of tsconfig-paths' [loadConfig]. *)
Record ConfigLoaderSuccess : Type := {
  absoluteBaseUrl : string;
  paths : option (list (string * list string));
  mainFields : option (list string);
  addMatchAll : option bool;
  configFileAbsolutePath : string;
}.

(** [loadConfig] answers with a [resultType] of ['success'] or
    ['failed']. *)
Inductive ConfigLoaderResult : Type :=
| ConfigSuccess (config : ConfigLoaderSuccess)
| ConfigFailed (message : string).

(** What [loadCompilerOptions] reads of the result of [loadTsconfig]. *)
Record Tsconfig : Type := {
  ts_include : option (list string);
  ts_exclude : option (list string);
  ts_allowJs : option bool;
  ts_checkJs : option bool;
}.

Record Env : Type := {
  (** [process.cwd()], which [path.posix.resolve] falls back on *)
  cwd : string;
  (** [crawl(root, {only: ['tsconfig.json'], skip: ['node_modules', '.git']})] *)
  crawl : string -> list string;
  loadConfig : string -> ConfigLoaderResult;
  loadTsconfig : string -> Tsconfig;
  (** [createMatchPathAsync(absoluteBaseUrl, paths, mainFields, addMatchAll)]
      applied to a specifier and the extensions: the path its callback
      receives *)
  createMatchPathAsync :
    string -> list (string * list string) -> list string -> option bool ->
    string -> list string -> option string;
  (** [(await this.resolve(id, importer, {skipSelf: true}))?.id] *)
  thisResolve : string -> string -> option string;
  (** [globRex(glob, {extended: true}).regex.test(path)] *)
  globRex : string -> string -> bool;
}.

Record PluginOptions : Type := {
  opt_root : option string;
  opt_projects : option (list string);
  opt_extensions : option (list string);
  opt_loose : option bool;
}.

Record CompilerOptions : Type := {
  include : option (list string);
  exclude : option (list string);
  allowJs : option bool;
}.

(** Vite's [normalizePath] on a POSIX host. *)
Definition normalizePath (id : string) : string := Posix.normalize id.

(** ** Calls to the collaborators leave a trace *)

Inductive Event : Type :=
| EvResolver (n : nat) (id importer : string)
    (* the [resolveId] hook calls the resolver at index [n] *)
| EvMatchPath (absoluteBaseUrl id : string)
    (* a resolver runs the alias matcher *)
| EvViteResolve (id importer : string).
    (* a resolver hands a candidate to Vite's resolver *)

Definition Trace (A : Type) : Type := (A * list Event)%type.

Definition ret {A} (a : A) : Trace A := (a, []).

Definition bind {A B} (m : Trace A) (k : A -> Trace B) : Trace B :=
  let '(a, t1) := m in
  let '(b, t2) := k a in
  (b, t1 ++ t2).

Definition emit (e : Event) : Trace unit := (tt, [e]).

Notation "'do' x <- m ; k" := (bind m (fun x => k))
  (at level 10, x pattern, m at level 100, k at level 200).

(** ** The plugin *)

(** [/\/node_modules\//] *)
Definition nodeModulesRE (s : string) : bool := JS.includes s "/node_modules/".

(** [/^\.\.?(\/|$)/] *)
Definition relativeImportRE (id : string) : bool :=
  match id with
  | String "." rest =>
      match rest with
      | EmptyString => true
      | String "/" _ => true
      | String "." rest' =>
          match rest' with
          | EmptyString => true
          | String "/" _ => true
          | _ => false
          end
      | _ => false
      end
  | _ => false
  end.

(** Returns true when [path] is within [root] and not an installed
    dependency. *)
Definition isLocalDescendant (path root : string) : bool :=
  JS.startsWith path root
  && negb (nodeModulesRE (JS.slice path (String.length root))).

Definition requiredExts : list string := [".ts"; ".tsx"; ".js"; ".jsx"; ".mjs"].

Definition getFileExtensions (exts : option (list string)) : list string :=
  match exts with
  | Some exts => exts ++ requiredExts
  | None => requiredExts
  end.

Section WithEnv.

Variable env : Env.
Variable opts : PluginOptions.

Definition loadCompilerOptions (configPath : string) : CompilerOptions :=
  let ts := loadTsconfig env configPath in
  {| include := ts_include ts;
     exclude := ts_exclude ts;
     allowJs := if JS.truthyb (ts_allowJs ts) then ts_allowJs ts
                else ts_checkJs ts |}.

Definition compileGlob (glob : string) : string -> bool :=
  globRex env (glob +:+ (if JS.endsWith glob "*" then "" else "**/*")).

Definition getIncluder (co : CompilerOptions) : string -> bool :=
  let include := default [] (include co) in
  let exclude := default [] (exclude co) in
  if negb (Nat.eqb (length include) 0) || negb (Nat.eqb (length exclude) 0)
  then
    let included := map compileGlob include in
    let excluded := map compileGlob exclude in
    fun path =>
      (Nat.eqb (length included) 0 || existsb (fun glob => glob path) included)
      && (Nat.eqb (length excluded) 0
          || negb (existsb (fun glob => glob path) excluded))
  else fun _ => true.

(** The depth of a project path, as stored in [depthMap]. *)
Definition depth (projectPath : string) : Z :=
  (Z.of_nat (length (JS.split "/" projectPath))
   - (if JS.endsWith projectPath ".json" then 1 else 0))%Z.

(** [depthMap[path]]; every path that is looked up has been stored. *)
Definition depthOf (depthMap : gmap string Z) (path : string) : Z :=
  default 0%Z (depthMap !! path).

(** The comparator [(a, b) => depthMap[b] - depthMap[a]]. *)
Definition byDepth (depthMap : gmap string Z) (a b : string) : Z :=
  (depthOf depthMap b - depthOf depthMap a)%Z.

(** It puts [a] no later than [b] when it is not positive. *)
Definition deeperFirst (depthMap : gmap string Z) (a b : string) : Prop :=
  (byDepth depthMap a b <= 0)%Z.

(** [resolve(root, normalizePath(projectPath))] *)
Definition resolveProject (root projectPath : string) : string :=
  Posix.resolve (cwd env) root (normalizePath projectPath).

(** The callback of [projects.map]: it resolves one path and stores its
    depth in [depthMap]. *)
Definition resolveStep (root : string) (acc : list string * gmap string Z)
    (projectPath : string) : list string * gmap string Z :=
  let '(done, depthMap) := acc in
  let projectPath := resolveProject root projectPath in
  (done ++ [projectPath], <[projectPath := depth projectPath]> depthMap).

(** [projects.map] with this callback: the resolved paths, and the
    [depthMap] filled on the way. *)
Definition resolveProjects (root : string) (projects : list string)
  : list string * gmap string Z :=
  foldl (resolveStep root) ([], ∅) projects.

(** The [root] of [findProjects]. *)
Definition crawlRoot (viteRoot : string) : string :=
  if JS.truthy (opt_root opts)
  then normalizePath
         (Posix.resolve (cwd env) viteRoot (default "" (opt_root opts)))
  else viteRoot.

(** The [projects] of [findProjects], before they are resolved. *)
Definition listedProjects (viteRoot : string) : list string :=
  let root := crawlRoot viteRoot in
  match opt_projects opts with
  | Some projects => projects
  | None => crawl env (if JS.truthy (Some root) then root else viteRoot)
  end.

(** The comparator decides the order of paths of different depths; paths
    of the same depth stay in the order they were listed or crawled in. *)
Definition findProjects (viteRoot : string) : list string :=
  let root := crawlRoot viteRoot in
  let projects := listedProjects viteRoot in
  let '(projects, depthMap) := resolveProjects root projects in
  JS.sort (byDepth depthMap) projects.

(** *** One resolver per project

    The closure [createResolver] returns captures these variables; its
    cache [resolved] is the state that a call takes and gives back. *)

Record Resolver : Type := {
  root : string;
  configPath : option string;
  config : ConfigLoaderSuccess;
  compilerOptions : CompilerOptions;
}.

Variable extensions : list string.

Definition viteResolve (id importer : string) : Trace (option string) :=
  do _ <- emit (EvViteResolve id importer);
  ret (thisResolve env id importer).

Definition defaultMainFields : list string :=
  ["module"; "jsnext"; "jsnext:main"; "browser"; "main"].

Definition resolveWithBaseUrl (config : ConfigLoaderSuccess)
    (id importer : string) : Trace (option string) :=
  viteResolve (Posix.join (absoluteBaseUrl config) id) importer.

Definition resolveWithPaths (config : ConfigLoaderSuccess)
    (paths : list (string * list string)) (id importer : string)
  : Trace (option string) :=
  let matchPath :=
    createMatchPathAsync env (absoluteBaseUrl config) paths
      (default defaultMainFields (mainFields config)) (addMatchAll config) in
  do _ <- emit (EvMatchPath (absoluteBaseUrl config) id);
  let path := matchPath id extensions in
  if JS.truthy path
  then viteResolve (normalizePath (default "" path)) importer
  else ret None.

(** The [resolveId] of a resolver: the aliases when the project has
    [paths], then the [baseUrl]. *)
Definition resolverResolveId (config : ConfigLoaderSuccess)
    (id importer : string) : Trace (option string) :=
  match paths config with
  | Some paths =>
      do resolved <- resolveWithPaths config paths id importer;
      if JS.truthy resolved then ret resolved
      else resolveWithBaseUrl config id importer
  | None => resolveWithBaseUrl config id importer
  end.

(** [/\.tsx?$/] *)
Definition tsExtRE (s : string) : bool :=
  JS.endsWith s ".ts" || JS.endsWith s ".tsx".

(** [/\.(vue|svelte|mdx|mjs|[jt]sx?)$/] *)
Definition jsExtRE (s : string) : bool :=
  existsb (JS.endsWith s)
    [".vue"; ".svelte"; ".mdx"; ".mjs"; ".js"; ".jsx"; ".ts"; ".tsx"].

(** [/./] *)
Definition anyCharRE (s : string) : bool :=
  existsb (fun c => negb (JS.lineTerminator c)) (list_ascii_of_string s).

Definition importerExtRE (co : CompilerOptions) : string -> bool :=
  if negb (JS.truthyb (opt_loose opts)) then
    if JS.truthyb (allowJs co) then jsExtRE else tsExtRE
  else anyCharRE.

Definition createResolver (root : string) : option Resolver :=
  let configPath := if JS.endsWith root ".json" then Some root else None in
  let root := if JS.truthy configPath then Posix.dirname root else root in
  let root := root +:+ "/" in
  match loadConfig env (if JS.truthy configPath
                        then default "" configPath else root) with
  | ConfigFailed _ => None
  | ConfigSuccess config =>
      Some {| root := root;
              configPath := configPath;
              config := config;
              compilerOptions :=
                loadCompilerOptions (configFileAbsolutePath config) |}
  end.

(** The function [createResolver] returns, applied to the cache
    [resolved] it closes over: its result and the cache afterwards. *)
Definition resolver (r : Resolver) (resolved : gmap string string)
    (id importer : string) : Trace (option string * gmap string string) :=
  if importerExtRE (compilerOptions r) importer then
    let path := resolved !! id in
    if negb (JS.truthy path) && isLocalDescendant importer (root r) then
      if negb (getIncluder (compilerOptions r)
                 (JS.slice importer (String.length (root r))))
      then ret (None, resolved)
      else
        do path <- resolverResolveId (config r) id importer;
        if JS.truthy path
        then ret (path, <[id := default "" path]> resolved)
        else ret (path, resolved)
    else ret (path, resolved)
  else ret (None, resolved).

(** *** The [resolveId] hook *)

(** The loop over [resolvers], from the resolver at index [n] on. *)
Fixpoint resolveLoop (n : nat)
    (resolvers : list (Resolver * gmap string string))
    (id importer : string)
  : Trace (option string * list (Resolver * gmap string string)) :=
  match resolvers with
  | [] => ret (None, [])
  | (r, cache) :: rest =>
      do _ <- emit (EvResolver n id importer);
      do (resolved, cache') <- resolver r cache id importer;
      if JS.truthy resolved then ret (resolved, (r, cache') :: rest)
      else
        do (result, rest') <- resolveLoop (S n) rest id importer;
        ret (result, (r, cache') :: rest')
  end.

Definition resolveId (resolvers : list (Resolver * gmap string string))
    (id : string) (importer : option string)
  : Trace (option string * list (Resolver * gmap string string)) :=
  if JS.truthy importer && negb (relativeImportRE id)
     && negb (Posix.isAbsolute id)
  then resolveLoop 0 resolvers id (default "" importer)
  else ret (None, resolvers).

End WithEnv.

(** [configResolved]: the resolvers of the projects whose configuration
    loads, in the order of [findProjects], each with an empty cache. *)
Definition configResolved (env : Env) (opts : PluginOptions)
    (viteRoot : string) : list (Resolver * gmap string string) :=
  let projects := findProjects env opts viteRoot in
  map (fun r => (r, ∅)) (omap (createResolver env) projects).

(** The [resolveId] hook that [configResolved] installs. *)
Definition pluginResolveId (env : Env) (opts : PluginOptions) :=
  resolveId env opts (getFileExtensions (opt_extensions opts)).

(** ** Notions the statements use *)

(** What [createResolver] passes to [loadConfig] for a project path:
    [configPath || root]. *)
Definition configLocation (projectPath : string) : string :=
  if JS.endsWith projectPath ".json" then projectPath
  else projectPath +:+ "/".

Definition configLoads (env : Env) (projectPath : string) : bool :=
  match loadConfig env (configLocation projectPath) with
  | ConfigSuccess _ => true
  | ConfigFailed _ => false
  end.

(** The project path a resolver was made for: its [configPath], or its
    [root] without the slash that was added. *)
Definition projectOf (r : Resolver) : string :=
  match configPath r with
  | Some p => p
  | None => JS.take (root r) (String.length (root r) - 1)
  end.

(** The indices of the resolvers the hook called, in the order of the
    calls. *)
Definition consulted (t : list Event) : list nat :=
  omap (fun e => match e with EvResolver n _ _ => Some n | _ => None end) t.

(** The resolution attempts of a trace: runs of the alias matcher and
    calls of Vite's resolver. *)
Definition attempts (t : list Event) : list Event :=
  List.filter
    (fun e => match e with EvResolver _ _ _ => false | _ => true end) t.

(** What the resolver at a position answers when it is called with the
    cache it has. *)
Definition answer (env : Env) (opts : PluginOptions) (extensions : list string)
    (rc : Resolver * gmap string string) (id importer : string)
  : option string :=
  (resolver env opts extensions rc.1 rc.2 id importer).1.1.

(** An id that Vite's resolver has given for some candidate and
    importer. *)
Definition confirmed (env : Env) (v : string) : Prop :=
  ∃ path importer, thisResolve env path importer = Some v.

(** ** A sample workspace

    [/proj/tsconfig.json] maps [@utils/*] to [utils/*] under the base
    [/proj/src]; [/proj/packages/a] has a configuration of its own, with
    [include] and [exclude]; the configuration under [/proj/broken] does not
    load. *)

Module Sample.

Definition files : list string :=
  ["/proj/src/main.ts"; "/proj/src/utils/format.ts";
   "/proj/packages/a/src/app.ts"; "/proj/packages/a/src/lib/math.ts";
   "/proj/node_modules/pkg/index.ts";
   "/proj/packages/a/node_modules/dep/index.ts"].

(** The file a candidate stands for: itself, or with an extension. *)
Definition probe (exts : list string) (candidate : string) : option string :=
  List.find (fun f => existsb (fun e => String.eqb f (candidate +:+ e))
                        ("" :: exts)) files.

(** An alias matcher for patterns and targets that end in a star: the
    first target of the first matching pattern that stands for a file. *)
Fixpoint matchPaths (base : string) (paths : list (string * list string))
    (id : string) (exts : list string) : option string :=
  match paths with
  | [] => None
  | (pattern, targets) :: rest =>
      let prefix := JS.take pattern (String.length pattern - 1) in
      if JS.endsWith pattern "*" && JS.startsWith id prefix then
        let star := JS.slice id (String.length prefix) in
        let candidates :=
          map (fun t => Posix.join base
                          (JS.take t (String.length t - 1) +:+ star))
              targets in
        List.find (fun c => bool_decide (is_Some (probe exts c))) candidates
      else matchPaths base rest id exts
  end.

Definition rootConfig : ConfigLoaderSuccess :=
  {| absoluteBaseUrl := "/proj/src";
     paths := Some [("@utils/*", ["utils/*"])];
     mainFields := None;
     addMatchAll := None;
     configFileAbsolutePath := "/proj/tsconfig.json" |}.

Definition packageConfig : ConfigLoaderSuccess :=
  {| absoluteBaseUrl := "/proj/packages/a/src";
     paths := None;
     mainFields := None;
     addMatchAll := None;
     configFileAbsolutePath := "/proj/packages/a/tsconfig.json" |}.

Definition env : Env :=
  {| cwd := "/proj";
     crawl := fun _ =>
       ["tsconfig.json"; "broken/tsconfig.json"; "packages/a/tsconfig.json"];
     loadConfig := fun p =>
       if String.eqb p "/proj/tsconfig.json" then ConfigSuccess rootConfig
       else if String.eqb p "/proj/packages/a/tsconfig.json"
       then ConfigSuccess packageConfig
       else ConfigFailed "Couldn't find tsconfig.json";
     loadTsconfig := fun p =>
       if String.eqb p "/proj/packages/a/tsconfig.json"
       then {| ts_include := Some ["src"];
               ts_exclude := Some ["src/generated"];
               ts_allowJs := None; ts_checkJs := None |}
       else {| ts_include := None; ts_exclude := None;
               ts_allowJs := None; ts_checkJs := None |};
     createMatchPathAsync := fun base paths _ _ => matchPaths base paths;
     thisResolve := fun id _ => probe requiredExts id;
     globRex := Globrex.test |}.

Definition opts : PluginOptions :=
  {| opt_root := None; opt_projects := None;
     opt_extensions := None; opt_loose := None |}.

(** The options of a user who lists the same configuration twice. *)
Definition twiceOpts : PluginOptions :=
  {| opt_root := None;
     opt_projects := Some ["tsconfig.json"; "./tsconfig.json"];
     opt_extensions := None; opt_loose := None |}.

(** The resolver of [/proj/tsconfig.json]. *)
Definition rootResolver : Resolver :=
  {| root := "/proj/";
     configPath := Some "/proj/tsconfig.json";
     config := rootConfig;
     compilerOptions :=
       {| include := None; exclude := None; allowJs := None |} |}.

(** The compiler options of [/proj/packages/a/tsconfig.json]. *)
Definition packageOptions : CompilerOptions :=
  {| include := Some ["src"]; exclude := Some ["src/generated"];
     allowJs := None |}.

End Sample.

(** * Properties *)

(** ** Strings *)

Lemma append_cons (c : ascii) (s t : string) :
  String c s +:+ t = String c (s +:+ t).
Proof. reflexivity. Qed.

Lemma append_empty_r (s : string) : s +:+ "" = s.
Proof.
  induction s as [|c s IH]; [reflexivity|]. by rewrite append_cons, IH.
Qed.

Lemma append_length (s t : string) :
  String.length (s +:+ t) = String.length s + String.length t.
Proof.
  induction s as [|c s IH]; [reflexivity|].
  rewrite append_cons. simpl. by rewrite IH.
Qed.

Lemma slice_append (s t : string) : JS.slice (s +:+ t) (String.length s) = t.
Proof.
  induction s as [|c s IH]; [by destruct t|].
  rewrite append_cons. exact IH.
Qed.

Lemma take_append (s t : string) : JS.take (s +:+ t) (String.length s) = s.
Proof.
  induction s as [|c s IH]; [by destruct t|].
  rewrite append_cons. simpl. by rewrite IH.
Qed.

Lemma endsWith_append (s suf : string) : JS.endsWith (s +:+ suf) suf = true.
Proof.
  unfold JS.endsWith. rewrite append_length.
  replace (String.length s + String.length suf - String.length suf)
    with (String.length s) by lia.
  rewrite slice_append, String.eqb_refl, andb_true_r.
  apply Nat.leb_le. lia.
Qed.

Lemma startsWith_cons (c d : ascii) (s p : string) :
  JS.startsWith (String d s) (String c p)
  = if Ascii.eqb c d then JS.startsWith s p else false.
Proof. reflexivity. Qed.

Lemma startsWith_cons_inv (c d : ascii) (s p : string) :
  JS.startsWith (String d s) (String c p) = true →
  d = c ∧ JS.startsWith s p = true.
Proof.
  rewrite startsWith_cons.
  destruct (Ascii.eqb_spec c d) as [->|]; [done | discriminate].
Qed.

Lemma startsWith_isAbsolute (s : string) :
  Posix.isAbsolute s = JS.startsWith s "/".
Proof.
  destruct s as [|c s]; [reflexivity|].
  rewrite startsWith_cons. unfold Posix.isAbsolute.
  rewrite (Ascii.eqb_sym "/" c). destruct (Ascii.eqb c "/"); reflexivity.
Qed.

Lemma relativeImportRE_dot_slash (id : string) :
  JS.startsWith id "./" = true → relativeImportRE id = true.
Proof.
  destruct id as [|c1 [|c2 rest]]; try discriminate.
  - intros [-> H]%startsWith_cons_inv. discriminate.
  - intros [-> [-> _]%startsWith_cons_inv]%startsWith_cons_inv.
    reflexivity.
Qed.

Lemma relativeImportRE_dot_dot_slash (id : string) :
  JS.startsWith id "../" = true → relativeImportRE id = true.
Proof.
  destruct id as [|c1 [|c2 [|c3 rest]]]; try discriminate.
  - intros [-> H]%startsWith_cons_inv. discriminate.
  - intros [-> [-> H]%startsWith_cons_inv]%startsWith_cons_inv.
    discriminate.
  - intros [-> [-> [-> _]%startsWith_cons_inv]%startsWith_cons_inv]
             %startsWith_cons_inv.
    reflexivity.
Qed.

(** ** The gate of the hook *)

(** C1: when the specifier starts with [./] or [../] or is an absolute
    path, or when there is no importer (it is [undefined], or empty), the
    [resolveId] hook returns nothing, calls no resolver and attempts no
    resolution: its trace is empty and the resolvers are as they were. *)
Theorem resolveId_ineligible (env : Env) (opts : PluginOptions)
    (extensions : list string)
    (resolvers : list (Resolver * gmap string string))
    (id : string) (importer : option string) :
  JS.startsWith id "./" = true ∨ JS.startsWith id "../" = true
  ∨ Posix.isAbsolute id = true ∨ JS.truthy importer = false →
  resolveId env opts extensions resolvers id importer
  = ((None, resolvers), []).
Proof.
  intros H. unfold resolveId.
  destruct H as [H | [H | [H | H]]].
  - rewrite (relativeImportRE_dot_slash _ H). by rewrite andb_false_r.
  - rewrite (relativeImportRE_dot_dot_slash _ H). by rewrite andb_false_r.
  - rewrite H. by rewrite andb_false_r.
  - by rewrite H.
Qed.

Lemma resolveId_ineligible_witness :
  pluginResolveId Sample.env Sample.opts
    (configResolved Sample.env Sample.opts "/proj")
    "./utils/format" (Some "/proj/src/main.ts")
  = ((None, configResolved Sample.env Sample.opts "/proj"), []).
Proof.
  apply (resolveId_ineligible Sample.env Sample.opts).
  left. reflexivity.
Defined.

(** ** The implicit extensions *)

(** C4, as the code has it: the extensions of the user come first and the
    required ones, [.ts .tsx .js .jsx .mjs] in this order, follow them;
    without the option the list is the required ones. *)
Theorem getFileExtensions_user_first (exts : list string) :
  getFileExtensions (Some exts)
  = exts ++ [".ts"; ".tsx"; ".js"; ".jsx"; ".mjs"]
  ∧ getFileExtensions None = [".ts"; ".tsx"; ".js"; ".jsx"; ".mjs"].
Proof. split; reflexivity. Qed.

(** C4, as stated, fails: with the option [[".vue"]] the list does not end
    with [.vue], it starts with it. *)
Lemma getFileExtensions_not_appended :
  getFileExtensions (Some [".vue"]) ≠ requiredExts ++ [".vue"]
  ∧ getFileExtensions (Some [".vue"])
    = [".vue"; ".ts"; ".tsx"; ".js"; ".jsx"; ".mjs"].
Proof. split; [discriminate | reflexivity]. Qed.

(** ** The inclusion filter *)

Section Includer.

Variable env : Env.

Lemma existsb_compiled (globs : list string) (path : string) :
  existsb (fun glob : string → bool => glob path)
    (map (compileGlob env) globs) = true
  ↔ ∃ g, g ∈ globs ∧ compileGlob env g path = true.
Proof.
  rewrite existsb_exists. split.
  - intros (f & Hin & Hf). apply in_map_iff in Hin as (g & <- & Hg).
    exists g. split; [by apply list_elem_of_In | done].
  - intros (g & Hg & Hf). exists (compileGlob env g).
    split; [| done]. apply in_map. by apply list_elem_of_In.
Qed.

Lemma getIncluder_unfold (co : CompilerOptions) (path : string) :
  getIncluder env co path
  = (match default [] (include co) with
     | [] => true
     | _ => existsb (fun glob : string → bool => glob path)
              (map (compileGlob env) (default [] (include co)))
     end)
    && (match default [] (exclude co) with
        | [] => true
        | _ => negb (existsb (fun glob : string → bool => glob path)
                       (map (compileGlob env) (default [] (exclude co))))
        end).
Proof.
  unfold getIncluder.
  destruct (default [] (include co)) as [|i inc],
           (default [] (exclude co)) as [|e exc]; reflexivity.
Qed.

Lemma some_include_matches (inc : list string) (path : string) :
  match inc with
  | [] => true
  | _ => existsb (fun glob : string → bool => glob path)
           (map (compileGlob env) inc)
  end = true
  ↔ inc = [] ∨ ∃ g, g ∈ inc ∧ compileGlob env g path = true.
Proof.
  destruct inc as [|i inc].
  - split; [by left | done].
  - rewrite existsb_compiled. split; [by right|].
    intros [? | ?]; done.
Qed.

Lemma no_exclude_matches (exc : list string) (path : string) :
  match exc with
  | [] => true
  | _ => negb (existsb (fun glob : string → bool => glob path)
                 (map (compileGlob env) exc))
  end = true
  ↔ exc = [] ∨ ∀ g, g ∈ exc → compileGlob env g path = false.
Proof.
  destruct exc as [|e exc].
  - split; [by left | done].
  - rewrite negb_true_iff, <- not_true_iff_false, existsb_compiled.
    split.
    + intros Hno. right. intros g Hg.
      apply not_true_iff_false. intros Hm. apply Hno. eauto.
    + intros [? | Hall]; [done|]. intros (g & Hg & Hm).
      rewrite (Hall g Hg) in Hm. done.
Qed.

(** C5: with both lists empty every path is accepted; in general a path
    is accepted exactly when the include list is empty or one of its
    patterns matches, and the exclude list is empty or none of its
    patterns matches; so a matching exclude pattern rejects the path
    whatever the include patterns say. *)
Theorem getIncluder_truth_table (co : CompilerOptions) (path : string) :
  let inc := default [] (include co) in
  let exc := default [] (exclude co) in
  (inc = [] → exc = [] → getIncluder env co path = true)
  ∧ (getIncluder env co path = true
     ↔ (inc = [] ∨ ∃ g, g ∈ inc ∧ compileGlob env g path = true)
       ∧ (exc = [] ∨ ∀ g, g ∈ exc → compileGlob env g path = false))
  ∧ (∀ g, g ∈ exc → compileGlob env g path = true →
       getIncluder env co path = false).
Proof.
  cbv zeta. rewrite getIncluder_unfold.
  pose proof (some_include_matches (default [] (include co)) path) as Hinc.
  pose proof (no_exclude_matches (default [] (exclude co)) path) as Hexc.
  split; [| split].
  - intros -> ->. reflexivity.
  - rewrite andb_true_iff, Hinc, Hexc. reflexivity.
  - intros g Hg Hm. apply not_true_iff_false.
    rewrite andb_true_iff, Hexc. intros [_ [Hnil | Hall]].
    + rewrite Hnil in Hg. by apply elem_of_nil in Hg.
    + rewrite (Hall g Hg) in Hm. done.
Qed.

Lemma compileGlob_suffix (glob : string) :
  (JS.endsWith glob "*" = false →
   compileGlob env glob = globRex env (glob +:+ "**/*"))
  ∧ (JS.endsWith glob "*" = true → compileGlob env glob = globRex env glob).
Proof.
  unfold compileGlob. split; intros ->; [reflexivity|].
  by rewrite append_empty_r.
Qed.

End Includer.

(** C6: a glob that does not end in a star is compiled with [**/*] added
    to it, one that does is compiled as it is; and with [include] ["src"]
    and [exclude] ["src/generated"], compiled by globrex, the filter accepts
    [src/app.ts] and rejects [src/generated/x.ts] and [lib/app.ts]. *)
Theorem getIncluder_src_generated :
  (∀ (env : Env) (glob : string),
     compileGlob env glob
     = globRex env (if JS.endsWith glob "*" then glob else glob +:+ "**/*"))
  ∧ compileGlob Sample.env "src" = Globrex.test "src**/*"
  ∧ compileGlob Sample.env "src/generated" = Globrex.test "src/generated**/*"
  ∧ getIncluder Sample.env
      {| include := Some ["src"]; exclude := Some ["src/generated"];
         allowJs := None |} "src/app.ts" = true
  ∧ getIncluder Sample.env
      {| include := Some ["src"]; exclude := Some ["src/generated"];
         allowJs := None |} "src/generated/x.ts" = false
  ∧ getIncluder Sample.env
      {| include := Some ["src"]; exclude := Some ["src/generated"];
         allowJs := None |} "lib/app.ts" = false.
Proof.
  split; [| repeat split; reflexivity].
  intros env glob.
  destruct (compileGlob_suffix env glob) as [Hf Ht].
  destruct (JS.endsWith glob "*"); auto.
Qed.

(** ** One resolver *)

Lemma sample_rootResolver :
  createResolver Sample.env "/proj/tsconfig.json" = Some Sample.rootResolver.
Proof. reflexivity. Qed.

Section ResolverFacts.

Variable env : Env.
Variable opts : PluginOptions.
Variable extensions : list string.

Variable r : Resolver.
Variable cache : gmap string string.
Variables id importer : string.

(** The four ways a call ends without an attempt. *)
Lemma resolver_bad_extension :
  importerExtRE opts (compilerOptions r) importer = false →
  resolver env opts extensions r cache id importer = ((None, cache), []).
Proof. intros H. unfold resolver. by rewrite H. Qed.

Lemma resolver_cached :
  importerExtRE opts (compilerOptions r) importer = true →
  JS.truthy (cache !! id) = true →
  resolver env opts extensions r cache id importer
  = ((cache !! id, cache), []).
Proof. intros H1 H2. unfold resolver. by rewrite H1, H2. Qed.

Lemma resolver_not_local :
  importerExtRE opts (compilerOptions r) importer = true →
  isLocalDescendant importer (root r) = false →
  resolver env opts extensions r cache id importer
  = ((cache !! id, cache), []).
Proof.
  intros H1 H2. unfold resolver. by rewrite H1, H2, andb_false_r.
Qed.

Lemma resolver_excluded :
  importerExtRE opts (compilerOptions r) importer = true →
  JS.truthy (cache !! id) = false →
  isLocalDescendant importer (root r) = true →
  getIncluder env (compilerOptions r)
    (JS.slice importer (String.length (root r))) = false →
  resolver env opts extensions r cache id importer = ((None, cache), []).
Proof. intros H1 H2 H3 H4. unfold resolver. by rewrite H1, H2, H3, H4. Qed.

(** A call that gets past the checks runs the resolver's [resolveId] and
    caches a truthy result. *)
Lemma resolver_eligible :
  importerExtRE opts (compilerOptions r) importer = true →
  JS.truthy (cache !! id) = false →
  isLocalDescendant importer (root r) = true →
  getIncluder env (compilerOptions r)
    (JS.slice importer (String.length (root r))) = true →
  resolver env opts extensions r cache id importer
  = let run := resolverResolveId env extensions (config r) id importer in
    ((run.1,
      if JS.truthy run.1 then <[id := default "" run.1]> cache else cache),
     run.2).
Proof.
  intros Hext Hmiss Hlocal Hinc. unfold resolver.
  rewrite Hext, Hmiss, Hlocal, Hinc. simpl.
  destruct (resolverResolveId env extensions (config r) id importer)
    as [path t].
  unfold bind, ret. simpl.
  destruct (JS.truthy path); by rewrite app_nil_r.
Qed.

(** C2, as the code has it: when the importer does not start with the
    root of the resolver, or the rest of its path has [/node_modules/] in
    it, the call caches nothing and attempts no resolution; it returns
    what the cache holds for the specifier if the importer has an
    accepted extension, so it returns nothing when the cache holds
    nothing for the specifier. *)
Theorem resolver_foreign_importer :
  JS.startsWith importer (root r) = false
  ∨ nodeModulesRE (JS.slice importer (String.length (root r))) = true →
  (resolver env opts extensions r cache id importer).1.2 = cache
  ∧ (resolver env opts extensions r cache id importer).2 = []
  ∧ (resolver env opts extensions r cache id importer).1.1
    = (if importerExtRE opts (compilerOptions r) importer
       then cache !! id else None)
  ∧ (cache !! id = None →
     (resolver env opts extensions r cache id importer).1.1 = None).
Proof.
  intros H.
  assert (Hlocal : isLocalDescendant importer (root r) = false).
  { unfold isLocalDescendant.
    destruct H as [-> | ->]; [done | by rewrite andb_false_r]. }
  destruct (importerExtRE opts (compilerOptions r) importer) eqn:Hext.
  - rewrite resolver_not_local by done. done.
  - rewrite resolver_bad_extension by done. done.
Qed.

End ResolverFacts.

(** The five ways a call of a resolver goes: answered from the cache;
    past all checks; importer excluded; importer not of the project;
    importer of another kind of file. *)
Ltac resolver_cases env opts r cache id importer :=
  destruct (importerExtRE opts (compilerOptions r) importer) eqn:Hext;
  [ destruct (JS.truthy (cache !! id)) eqn:Hhit;
    [ | destruct (isLocalDescendant importer (root r)) eqn:Hlocal;
        [ destruct (getIncluder env (compilerOptions r)
                      (JS.slice importer (String.length (root r))))
            eqn:Hinc | ] ]
  | ].

Section ResolverCalls.

Variable env : Env.
Variable opts : PluginOptions.
Variable extensions : list string.

(** C3, as the code has it: a second call with the same specifier and
    importer returns what the first returned and leaves the cache as the
    first left it; when the first call returned a path, the second attempts
    no resolution, as the path is cached; when the first call returned
    nothing, nothing was cached and the second call makes the attempts of
    the first again. *)
Theorem resolver_second_call (r : Resolver) (cache : gmap string string)
    (id importer : string) :
  let first := resolver env opts extensions r cache id importer in
  let second := resolver env opts extensions r first.1.2 id importer in
  second.1.1 = first.1.1
  ∧ second.1.2 = first.1.2
  ∧ (JS.truthy first.1.1 = true → second.2 = [])
  ∧ (JS.truthy first.1.1 = false → second.2 = first.2).
Proof.
  cbv zeta. resolver_cases env opts r cache id importer.
  - rewrite !(resolver_cached _ _ _ _ cache) by done. simpl.
    by rewrite Hhit.
  - rewrite (resolver_eligible _ _ _ _ cache) by done. cbv zeta. simpl.
    destruct (resolverResolveId env extensions (config r) id importer)
      as [path t] eqn:Hrun. simpl.
    destruct (JS.truthy path) eqn:Hpath.
    + destruct path as [p|]; [|done]. simpl.
      rewrite resolver_cached; rewrite ?lookup_insert_eq; done.
    + rewrite (resolver_eligible _ _ _ _ cache) by done. cbv zeta.
      rewrite Hrun. simpl. rewrite Hpath. done.
  - by rewrite !(resolver_excluded _ _ _ _ cache).
  - rewrite !(resolver_not_local _ _ _ _ cache) by done. simpl.
    by rewrite Hhit.
  - by rewrite !resolver_bad_extension.
Qed.

Lemma resolverResolveId_baseUrl_only (config : ConfigLoaderSuccess)
    (id importer : string) :
  paths config = None →
  resolverResolveId env extensions config id importer
  = (thisResolve env (Posix.join (absoluteBaseUrl config) id) importer,
     [EvViteResolve (Posix.join (absoluteBaseUrl config) id) importer]).
Proof. intros H. unfold resolverResolveId. by rewrite H. Qed.

(** C10: a call that gets past the checks of the resolver resolves the
    specifier joined to the base path with Vite's resolver when the
    configuration has no [paths], and when the alias matcher finds
    nothing; when the alias matcher finds a path and Vite's resolver
    accepts it, that is the result and the base path is not tried; when
    Vite's resolver refuses it, the base path is tried after it. *)
Theorem resolver_alias_then_baseUrl (r : Resolver)
    (cache : gmap string string) (id importer : string) :
  importerExtRE opts (compilerOptions r) importer = true →
  JS.truthy (cache !! id) = false →
  isLocalDescendant importer (root r) = true →
  getIncluder env (compilerOptions r)
    (JS.slice importer (String.length (root r))) = true →
  let out := resolver env opts extensions r cache id importer in
  let baseUrl := absoluteBaseUrl (config r) in
  let candidate := Posix.join baseUrl id in
  let viaBase := thisResolve env candidate importer in
  (paths (config r) = None →
   out.1.1 = viaBase ∧ out.2 = [EvViteResolve candidate importer])
  ∧ (∀ ps, paths (config r) = Some ps →
       let alias :=
         createMatchPathAsync env baseUrl ps
           (default defaultMainFields (mainFields (config r)))
           (addMatchAll (config r)) id extensions in
       let viaAlias :=
         thisResolve env (normalizePath (default "" alias)) importer in
       (JS.truthy alias = false →
        out.1.1 = viaBase
        ∧ out.2 = [EvMatchPath baseUrl id; EvViteResolve candidate importer])
       ∧ (JS.truthy alias = true → JS.truthy viaAlias = true →
          out.1.1 = viaAlias
          ∧ out.2 = [EvMatchPath baseUrl id;
                     EvViteResolve (normalizePath (default "" alias))
                       importer])
       ∧ (JS.truthy alias = true → JS.truthy viaAlias = false →
          out.1.1 = viaBase
          ∧ out.2 = [EvMatchPath baseUrl id;
                     EvViteResolve (normalizePath (default "" alias))
                       importer;
                     EvViteResolve candidate importer])).
Proof.
  intros Hext Hmiss Hlocal Hinc. cbv zeta.
  rewrite (resolver_eligible _ _ _ _ cache) by done. cbv zeta. simpl.
  split.
  - intros Hnone. by rewrite resolverResolveId_baseUrl_only.
  - intros ps Hps. unfold resolverResolveId, resolveWithPaths.
    rewrite Hps. split; [| split]; intros Halias; try intros Hvia;
      simpl; rewrite Halias; simpl; try rewrite Hvia; done.
Qed.

End ResolverCalls.

(** The importer [/elsewhere/index.ts] is outside [/proj/], and the
    importer under [/proj/packages/a/node_modules/] is in an installed
    dependency; with an empty cache the resolver of [/proj/tsconfig.json]
    returns nothing for them. *)
Lemma resolver_foreign_importer_witness :
  (resolver Sample.env Sample.opts requiredExts Sample.rootResolver ∅
     "@utils/format" "/proj/packages/a/node_modules/dep/index.ts").1.1 = None.
Proof.
  apply (resolver_foreign_importer Sample.env Sample.opts requiredExts
           Sample.rootResolver ∅ "@utils/format"
           "/proj/packages/a/node_modules/dep/index.ts").
  - right. reflexivity.
  - reflexivity.
Defined.

(** C2, as stated, fails: once [@utils/format] has been resolved for an
    importer of the project, the resolver returns the cached path to an
    importer outside its root, and to one in an installed dependency. *)
Lemma resolver_cache_before_ownership :
  let first :=
    resolver Sample.env Sample.opts requiredExts Sample.rootResolver ∅
      "@utils/format" "/proj/src/main.ts" in
  let outside :=
    resolver Sample.env Sample.opts requiredExts Sample.rootResolver
      first.1.2 "@utils/format" "/elsewhere/index.ts" in
  let installed :=
    resolver Sample.env Sample.opts requiredExts Sample.rootResolver
      first.1.2 "@utils/format"
      "/proj/packages/a/node_modules/dep/index.ts" in
  JS.startsWith "/elsewhere/index.ts" (root Sample.rootResolver) = false
  ∧ outside.1.1 = Some "/proj/src/utils/format.ts"
  ∧ nodeModulesRE (JS.slice "/proj/packages/a/node_modules/dep/index.ts"
                     (String.length (root Sample.rootResolver))) = true
  ∧ installed.1.1 = Some "/proj/src/utils/format.ts"
  ∧ outside.1.1 ≠ None ∧ installed.1.1 ≠ None.
Proof. vm_compute. repeat split; discriminate. Qed.

(** An importer in the [node_modules] directory right under the root is
    taken for a file of the project: the rest of its path starts with
    [node_modules/], without the slash [nodeModulesRE] looks for. *)
Lemma isLocalDescendant_node_modules_under_root :
  isLocalDescendant "/proj/node_modules/pkg/index.ts" "/proj/" = true
  ∧ isLocalDescendant "/proj/packages/a/node_modules/dep/index.ts" "/proj/"
    = false
  ∧ (resolver Sample.env Sample.opts requiredExts Sample.rootResolver ∅
       "@utils/format" "/proj/node_modules/pkg/index.ts").1.1
    = Some "/proj/src/utils/format.ts".
Proof. vm_compute. repeat split. Qed.

(** C3, as stated, fails: [@missing/x] resolves to nothing, nothing is
    cached for it, and the second call runs the alias matcher and Vite's
    resolver again. *)
Lemma resolver_no_match_not_cached :
  let first :=
    resolver Sample.env Sample.opts requiredExts Sample.rootResolver ∅
      "@missing/x" "/proj/src/main.ts" in
  let second :=
    resolver Sample.env Sample.opts requiredExts Sample.rootResolver
      first.1.2 "@missing/x" "/proj/src/main.ts" in
  first.1.1 = None
  ∧ first.1.2 !! "@missing/x" = None
  ∧ second.2 = [EvMatchPath "/proj/src" "@missing/x";
                EvViteResolve "/proj/src/@missing/x" "/proj/src/main.ts"]
  ∧ attempts second.2 ≠ [].
Proof. vm_compute. repeat split; discriminate. Qed.

(** [@missing/x] matches no alias of [/proj/tsconfig.json], so it is
    resolved against the base path [/proj/src]. *)
Lemma resolver_alias_then_baseUrl_witness :
  (resolver Sample.env Sample.opts requiredExts Sample.rootResolver ∅
     "@missing/x" "/proj/src/main.ts").2
  = [EvMatchPath "/proj/src" "@missing/x";
     EvViteResolve "/proj/src/@missing/x" "/proj/src/main.ts"].
Proof.
  pose proof (resolver_alias_then_baseUrl Sample.env Sample.opts requiredExts
                Sample.rootResolver ∅ "@missing/x" "/proj/src/main.ts"
                eq_refl eq_refl eq_refl eq_refl) as H.
  cbv zeta in H. destruct H as [_ H].
  destruct (H _ eq_refl) as [Hnone _].
  apply Hnone. reflexivity.
Defined.

(** ** Project discovery *)

Lemma resolveArgs_absolute (args : list string) (acc : string) :
  Exists (λ p, Posix.isAbsolute p = true) args →
  (Posix.resolveArgs args acc).2 = true.
Proof.
  revert acc. induction args as [|path rest IH]; intros acc Hex.
  - by apply Exists_nil in Hex.
  - apply Exists_cons in Hex. destruct path as [|c s].
    + destruct Hex as [Habs | Hex]; [discriminate|]. simpl. by apply IH.
    + cbn [Posix.resolveArgs].
      destruct (Posix.isAbsolute (String c s)) eqn:Habs; [reflexivity|].
      destruct Hex as [? | Hex]; [congruence|]. by apply IH.
Qed.

Lemma resolve_isAbsolute (cwd a b : string) :
  Posix.isAbsolute cwd = true →
  Posix.isAbsolute (Posix.resolve cwd a b) = true.
Proof.
  intros Hcwd. unfold Posix.resolve.
  pose proof (resolveArgs_absolute [b; a; cwd] "") as Habs.
  destruct (Posix.resolveArgs [b; a; cwd] "") as [resolvedPath abs].
  simpl in Habs. rewrite Habs; [reflexivity|].
  do 2 apply Exists_cons_tl. by apply Exists_cons_hd.
Qed.

Section Sort.

Context {A : Type}.
Variable compare : A → A → Z.

Lemma sortInsert_Permutation (x : A) (l : list A) :
  JS.sortInsert compare x l ≡ₚ x :: l.
Proof.
  induction l as [|y l IH]; [reflexivity|]. cbn [JS.sortInsert].
  destruct (Z.leb (compare x y) 0); [reflexivity|].
  rewrite IH. apply Permutation_swap.
Qed.

Lemma sort_Permutation (l : list A) : JS.sort compare l ≡ₚ l.
Proof.
  induction l as [|x l IH]; [reflexivity|].
  cbn [JS.sort foldr]. fold (JS.sort compare l).
  by rewrite sortInsert_Permutation, IH.
Qed.

(** The sort is stable: elements that tie with each other are in the
    result in the order they had. *)
Lemma sortInsert_filter_other (P : A → bool) (x : A) (l : list A) :
  P x = false →
  List.filter P (JS.sortInsert compare x l) = List.filter P l.
Proof.
  intros Hx. induction l as [|y l IH]; cbn [JS.sortInsert List.filter].
  - by rewrite Hx.
  - destruct (Z.leb (compare x y) 0); cbn [List.filter].
    + by rewrite Hx.
    + by rewrite IH.
Qed.

Lemma sortInsert_filter_tied (P : A → bool) (x : A) (l : list A) :
  P x = true →
  (∀ y, y ∈ l → P y = true → (compare x y ≤ 0)%Z) →
  List.filter P (JS.sortInsert compare x l) = x :: List.filter P l.
Proof.
  intros Hx. induction l as [|y l IH]; intros Htied;
    cbn [JS.sortInsert List.filter].
  - by rewrite Hx.
  - destruct (Z.leb_spec (compare x y) 0) as [Hle | Hgt]; cbn [List.filter].
    + by rewrite Hx.
    + destruct (P y) eqn:Hy.
      * pose proof (Htied y (list_elem_of_here _ _) Hy). lia.
      * apply IH. intros z Hz. apply Htied. by apply list_elem_of_further.
Qed.

Lemma sort_stable (P : A → bool) (l : list A) :
  (∀ x y, x ∈ l → y ∈ l → P x = true → P y = true → (compare x y ≤ 0)%Z) →
  List.filter P (JS.sort compare l) = List.filter P l.
Proof.
  induction l as [|x l IH]; intros Htied; [reflexivity|].
  cbn [JS.sort foldr]. fold (JS.sort compare l). cbn [List.filter].
  destruct (P x) eqn:Hx.
  - rewrite sortInsert_filter_tied; [| done |].
    + rewrite IH; [done|]. intros y z Hy Hz.
      apply Htied; by apply list_elem_of_further.
    + intros y Hy. rewrite sort_Permutation in Hy.
      apply Htied; [apply list_elem_of_here | by apply list_elem_of_further
                    | done].
  - rewrite sortInsert_filter_other by done.
    apply IH. intros y z Hy Hz. apply Htied; by apply list_elem_of_further.
Qed.

Hypothesis compare_total :
  ∀ x y, (compare x y ≤ 0)%Z ∨ (compare y x ≤ 0)%Z.
Hypothesis compare_trans :
  ∀ x y z, (compare x y ≤ 0)%Z → (compare y z ≤ 0)%Z → (compare x z ≤ 0)%Z.

Lemma sortInsert_sorted (x : A) (l : list A) :
  StronglySorted (λ a b, (compare a b ≤ 0)%Z) l →
  StronglySorted (λ a b, (compare a b ≤ 0)%Z) (JS.sortInsert compare x l).
Proof.
  induction 1 as [|y l Hl IH Hall]; [by repeat constructor|].
  cbn [JS.sortInsert]. destruct (Z.leb_spec (compare x y) 0) as [Hle | Hgt].
  - constructor; [by constructor|]. constructor; [done|].
    apply Forall_forall. intros z Hz. apply (compare_trans x y z); [done|].
    by apply (proj1 (Forall_forall _ _) Hall).
  - constructor; [done|]. apply Forall_forall. intros z Hz.
    rewrite sortInsert_Permutation in Hz.
    apply elem_of_cons in Hz as [-> | Hz].
    + destruct (compare_total x y); [lia | done].
    + by apply (proj1 (Forall_forall _ _) Hall).
Qed.

Lemma sort_sorted (l : list A) :
  StronglySorted (λ a b, (compare a b ≤ 0)%Z) (JS.sort compare l).
Proof.
  induction l as [|x l IH]; [constructor|].
  cbn [JS.sort foldr]. fold (JS.sort compare l). by apply sortInsert_sorted.
Qed.

End Sort.

Section Discovery.

Variable env : Env.

Lemma resolveProjects_fold (root : string) (projects done : list string)
    (depthMap : gmap string Z) :
  let out := foldl (resolveStep env root) (done, depthMap) projects in
  out.1 = done ++ map (resolveProject env root) projects
  ∧ ∀ p, p ∈ map (resolveProject env root) projects
         ∨ depthMap !! p = Some (depth p) →
         out.2 !! p = Some (depth p).
Proof.
  revert done depthMap.
  induction projects as [|x l IH]; intros done depthMap; cbv zeta.
  - simpl. rewrite app_nil_r. split; [done|].
    intros p [Hin | Hp]; [by apply elem_of_nil in Hin | done].
  - cbn [foldl map resolveStep].
    destruct (IH (done ++ [resolveProject env root x])
                (<[resolveProject env root x
                   := depth (resolveProject env root x)]> depthMap))
      as [Hfst Hsnd].
    split.
    + rewrite Hfst, <- app_assoc. reflexivity.
    + intros p Hp. apply Hsnd.
      destruct (decide (p = resolveProject env root x)) as [-> | Hne].
      * right. apply lookup_insert_eq.
      * destruct Hp as [Hin | Hp].
        -- left. apply elem_of_cons in Hin as [? | ?]; done.
        -- right. by rewrite lookup_insert_ne.
Qed.

Lemma resolveProjects_paths (root : string) (projects : list string) :
  (resolveProjects env root projects).1
  = map (resolveProject env root) projects.
Proof. apply (resolveProjects_fold root projects [] ∅). Qed.

(** Every resolved path has its depth in [depthMap]. *)
Lemma resolveProjects_depthMap (root : string) (projects : list string)
    (p : string) :
  p ∈ (resolveProjects env root projects).1 →
  depthOf (resolveProjects env root projects).2 p = depth p.
Proof.
  rewrite resolveProjects_paths. intros Hin. unfold depthOf.
  destruct (resolveProjects_fold root projects [] ∅) as [_ H].
  unfold resolveProjects. rewrite (H p); [reflexivity | by left].
Qed.

Lemma deeperFirst_total (depthMap : gmap string Z) (a b : string) :
  deeperFirst depthMap a b ∨ deeperFirst depthMap b a.
Proof. unfold deeperFirst, byDepth. lia. Qed.

Lemma deeperFirst_trans (depthMap : gmap string Z) (a b c : string) :
  deeperFirst depthMap a b → deeperFirst depthMap b c →
  deeperFirst depthMap a c.
Proof. unfold deeperFirst, byDepth. lia. Qed.

Lemma StronglySorted_on_elements {A} (R R' : relation A) (l : list A) :
  (∀ x y, x ∈ l → y ∈ l → R x y → R' x y) →
  StronglySorted R l → StronglySorted R' l.
Proof.
  intros Himpl Hsorted. induction Hsorted as [|x l Hl IH Hall].
  - constructor.
  - constructor.
    + apply IH. intros a b Ha Hb. apply Himpl; by apply list_elem_of_further.
    + apply Forall_forall. intros y Hy.
      apply Himpl; [apply list_elem_of_here | by apply list_elem_of_further |].
      by apply (proj1 (Forall_forall _ _) Hall).
Qed.

Lemma StronglySorted_lookup {A} (R : relation A) (l : list A)
    (i j : nat) (a b : A) :
  StronglySorted R l → i < j → l !! i = Some a → l !! j = Some b → R a b.
Proof.
  intros Hsorted. revert i j.
  induction Hsorted as [|x l Hl IH Hall]; intros i j Hij Hi Hj.
  - by rewrite lookup_nil in Hi.
  - destruct j as [|j]; [lia|]. destruct i as [|i]; simpl in *.
    + injection Hi as <-.
      apply (proj1 (Forall_forall _ _) Hall).
      by eapply list_elem_of_lookup_2.
    + apply (IH i j); [lia | done | done].
Qed.

Lemma StronglySorted_filter {A} (R : relation A) (f : A → bool)
    (l : list A) :
  StronglySorted R l → StronglySorted R (List.filter f l).
Proof.
  induction 1 as [|x l Hl IH Hall]; simpl; [constructor|].
  destruct (f x); [|done]. constructor; [done|].
  apply Forall_forall. intros y Hy.
  apply list_elem_of_In, filter_In in Hy as [Hy _].
  by apply (proj1 (Forall_forall _ _) Hall), list_elem_of_In.
Qed.

Variable opts : PluginOptions.
Variable viteRoot : string.

Lemma findProjects_Permutation :
  findProjects env opts viteRoot
  ≡ₚ map (resolveProject env (crawlRoot env opts viteRoot))
       (listedProjects env opts viteRoot).
Proof.
  unfold findProjects.
  rewrite <- resolveProjects_paths.
  destruct (resolveProjects env (crawlRoot env opts viteRoot)
              (listedProjects env opts viteRoot)) as [projects depthMap].
  apply sort_Permutation.
Qed.

(** The result of [findProjects] is in the order of depth, deepest
    first. *)
Lemma findProjects_sorted :
  StronglySorted (λ a b, (depth b ≤ depth a)%Z)
    (findProjects env opts viteRoot).
Proof.
  unfold findProjects.
  pose proof (resolveProjects_depthMap (crawlRoot env opts viteRoot)
                (listedProjects env opts viteRoot)) as Hdepth.
  destruct (resolveProjects env (crawlRoot env opts viteRoot)
              (listedProjects env opts viteRoot)) as [projects depthMap].
  simpl in Hdepth.
  apply (StronglySorted_on_elements (deeperFirst depthMap)).
  - intros a b Ha Hb. rewrite sort_Permutation in Ha, Hb.
    unfold deeperFirst, byDepth. rewrite !Hdepth by done. lia.
  - apply sort_sorted.
    + apply deeperFirst_total.
    + apply deeperFirst_trans.
Qed.

(** Projects of the same depth are in the result in the order they were
    given or crawled in. *)
Lemma findProjects_stable (d : Z) :
  List.filter (λ p, Z.eqb (depth p) d) (findProjects env opts viteRoot)
  = List.filter (λ p, Z.eqb (depth p) d)
      (map (resolveProject env (crawlRoot env opts viteRoot))
         (listedProjects env opts viteRoot)).
Proof.
  unfold findProjects.
  pose proof (resolveProjects_depthMap (crawlRoot env opts viteRoot)
                (listedProjects env opts viteRoot)) as Hdepth.
  rewrite <- resolveProjects_paths.
  destruct (resolveProjects env (crawlRoot env opts viteRoot)
              (listedProjects env opts viteRoot)) as [projects depthMap].
  cbn [fst snd] in *.
  apply sort_stable. intros a b Ha Hb Hda Hdb. unfold byDepth.
  rewrite !Hdepth by done. lia.
Qed.

End Discovery.

(** C8, as the code has it: every listed or crawled path is resolved to an
    absolute path, and the result holds these paths in some order, each as
    many times as it was given: nothing is removed. *)
Theorem findProjects_resolves_all (env : Env) (opts : PluginOptions)
    (viteRoot : string) :
  Posix.isAbsolute (cwd env) = true →
  findProjects env opts viteRoot
  ≡ₚ map (λ p, Posix.resolve (cwd env) (crawlRoot env opts viteRoot)
                 (normalizePath p))
       (listedProjects env opts viteRoot)
  ∧ Forall (λ p, Posix.isAbsolute p = true) (findProjects env opts viteRoot)
  ∧ length (findProjects env opts viteRoot)
    = length (listedProjects env opts viteRoot).
Proof.
  intros Hcwd.
  pose proof (findProjects_Permutation env opts viteRoot) as Hperm.
  split; [exact Hperm | split].
  - rewrite Hperm. apply Forall_forall. intros p Hp.
    apply list_elem_of_In, in_map_iff in Hp as (x & <- & _).
    by apply resolve_isAbsolute.
  - rewrite Hperm. apply length_map.
Qed.

Lemma findProjects_resolves_all_witness :
  length (findProjects Sample.env Sample.twiceOpts "/proj") = 2.
Proof.
  apply (findProjects_resolves_all Sample.env Sample.twiceOpts "/proj").
  reflexivity.
Defined.

(** C8, as stated, fails: [tsconfig.json] and [./tsconfig.json] resolve to
    the same absolute path, and the result holds it twice. *)
Lemma findProjects_keeps_duplicates :
  resolveProject Sample.env "/proj" "tsconfig.json"
  = resolveProject Sample.env "/proj" "./tsconfig.json"
  ∧ findProjects Sample.env Sample.twiceOpts "/proj"
    = ["/proj/tsconfig.json"; "/proj/tsconfig.json"]
  ∧ ¬ NoDup (findProjects Sample.env Sample.twiceOpts "/proj").
Proof.
  split; [reflexivity | split; [reflexivity|]].
  change (findProjects Sample.env Sample.twiceOpts "/proj")
    with ["/proj/tsconfig.json"; "/proj/tsconfig.json"].
  intros Hnd. apply NoDup_cons in Hnd as [Hnotin _].
  apply Hnotin, list_elem_of_here.
Qed.

(** ** The resolvers of the projects *)

Lemma endsWith_json_truthy (p : string) :
  JS.endsWith p ".json" = true → JS.truthy (Some p) = true.
Proof. destruct p; [discriminate | reflexivity]. Qed.

Section Resolvers.

Variable env : Env.

Lemma createResolver_unfold (p : string) :
  createResolver env p
  = match loadConfig env (configLocation p) with
    | ConfigFailed _ => None
    | ConfigSuccess config =>
        Some {| root := (if JS.endsWith p ".json"
                         then Posix.dirname p else p) +:+ "/";
                configPath := if JS.endsWith p ".json" then Some p else None;
                config := config;
                compilerOptions :=
                  loadCompilerOptions env (configFileAbsolutePath config) |}
    end.
Proof.
  unfold createResolver, configLocation.
  destruct (JS.endsWith p ".json") eqn:Hjson.
  - rewrite (endsWith_json_truthy p Hjson). reflexivity.
  - reflexivity.
Qed.


Lemma createResolver_configLoads (p : string) :
  configLoads env p = bool_decide (is_Some (createResolver env p)).
Proof.
  rewrite createResolver_unfold. unfold configLoads.
  destruct (loadConfig env (configLocation p)) as [config | message].
  - symmetry. apply bool_decide_eq_true. eauto.
  - symmetry. apply bool_decide_eq_false. by intros [? ?].
Qed.

Lemma createResolver_Some (p : string) (r : Resolver) :
  createResolver env p = Some r →
  projectOf r = p
  ∧ loadConfig env (configLocation p) = ConfigSuccess (config r).
Proof.
  rewrite createResolver_unfold.
  destruct (loadConfig env (configLocation p)) as [config | message];
    [| discriminate].
  intros [= <-]. split; [| reflexivity].
  unfold projectOf. simpl.
  destruct (JS.endsWith p ".json"); [reflexivity|].
  rewrite append_length. simpl.
  replace (String.length p + 1 - 1) with (String.length p) by lia.
  apply take_append.
Qed.

Lemma omap_createResolver (projects : list string) :
  map projectOf (omap (createResolver env) projects)
  = List.filter (configLoads env) projects.
Proof.
  induction projects as [|p l IH]; [reflexivity|].
  cbn [omap list_omap List.filter]. rewrite createResolver_configLoads.
  destruct (createResolver env p) as [r|] eqn:Hr.
  - rewrite bool_decide_eq_true_2 by eauto. cbn [map].
    rewrite IH. f_equal. by apply createResolver_Some.
  - rewrite bool_decide_eq_false_2 by (by intros [? ?]). exact IH.
Qed.

Variable opts : PluginOptions.
Variable viteRoot : string.

Lemma configResolved_projects :
  map (λ rc, projectOf rc.1) (configResolved env opts viteRoot)
  = List.filter (configLoads env) (findProjects env opts viteRoot).
Proof.
  unfold configResolved. rewrite <- omap_createResolver.
  rewrite map_map. reflexivity.
Qed.

Lemma configResolved_elem (rc : Resolver * gmap string string) :
  rc ∈ configResolved env opts viteRoot
  ↔ rc.2 = ∅
    ∧ ∃ p, p ∈ findProjects env opts viteRoot
           ∧ createResolver env p = Some rc.1.
Proof.
  unfold configResolved. rewrite list_elem_of_In, in_map_iff. split.
  - intros (r & <- & Hr%list_elem_of_In). split; [reflexivity|].
    by apply list_elem_of_omap in Hr.
  - intros [Hempty (p & Hp & Hr)]. exists rc.1. split.
    + destruct rc as [r c]. simpl in *. by subst.
    + apply list_elem_of_In, list_elem_of_omap. eauto.
Qed.

(** The resolvers are in the order of the depth of their projects. *)
Lemma configResolved_sorted :
  StronglySorted (λ a b, (depth b ≤ depth a)%Z)
    (map (λ rc, projectOf rc.1) (configResolved env opts viteRoot)).
Proof.
  rewrite configResolved_projects.
  apply StronglySorted_filter, findProjects_sorted.
Qed.

End Resolvers.


(** In the sample workspace the configuration under [/proj/broken] fails
    to load: of the three projects found, two get a resolver. *)
Lemma sample_failed_configuration :
  findProjects Sample.env Sample.opts "/proj"
  = ["/proj/packages/a/tsconfig.json"; "/proj/broken/tsconfig.json";
     "/proj/tsconfig.json"]
  ∧ createResolver Sample.env "/proj/broken/tsconfig.json" = None
  ∧ map (λ rc, projectOf rc.1) (configResolved Sample.env Sample.opts "/proj")
    = ["/proj/packages/a/tsconfig.json"; "/proj/tsconfig.json"].
Proof. repeat split; reflexivity. Qed.

(** ** The depth of a path *)

Lemma append_assoc (s t u : string) : (s +:+ t) +:+ u = s +:+ (t +:+ u).
Proof.
  induction s as [|c s IH]; [reflexivity|].
  rewrite !append_cons. by rewrite IH.
Qed.

Lemma take_slice (s : string) (n : nat) : JS.take s n +:+ JS.slice s n = s.
Proof.
  revert s. induction n as [|n IH]; intros s; [reflexivity|].
  destruct s as [|c s]; [reflexivity|].
  cbn [JS.take JS.slice]. rewrite append_cons. by rewrite IH.
Qed.

Lemma endsWith_inv (s suf : string) :
  JS.endsWith s suf = true → ∃ pre, s = pre +:+ suf.
Proof.
  unfold JS.endsWith. intros [_ Heq%String.eqb_eq]%andb_true_iff.
  exists (JS.take s (String.length s - String.length suf)).
  rewrite <- (take_slice s (String.length s - String.length suf)) at 1.
  by rewrite Heq.
Qed.

Lemma endsWith_append_l (s t suf : string) :
  JS.endsWith t suf = true → JS.endsWith (s +:+ t) suf = true.
Proof.
  intros [pre ->]%endsWith_inv.
  rewrite <- append_assoc. apply endsWith_append.
Qed.

Lemma split_nonempty (sep : ascii) (s : string) : JS.split sep s ≠ [].
Proof.
  destruct s as [|c s]; [discriminate|]. cbn [JS.split].
  destruct (Ascii.eqb c sep); [discriminate|].
  by destruct (JS.split sep s).
Qed.

Lemma split_cons_length (sep c : ascii) (s : string) :
  length (JS.split sep (String c s))
  = if Ascii.eqb c sep then S (length (JS.split sep s))
    else length (JS.split sep s).
Proof.
  cbn [JS.split]. destruct (Ascii.eqb c sep); [reflexivity|].
  pose proof (split_nonempty sep s).
  by destruct (JS.split sep s).
Qed.

Lemma split_append_length (sep : ascii) (s t : string) :
  length (JS.split sep (s +:+ String sep t))
  = length (JS.split sep s) + length (JS.split sep t).
Proof.
  induction s as [|c s IH].
  - change ("" +:+ String sep t) with (String sep t).
    rewrite split_cons_length, Ascii.eqb_refl. reflexivity.
  - rewrite append_cons, !split_cons_length, IH.
    destruct (Ascii.eqb c sep); reflexivity.
Qed.

(** A configuration file has the depth of the directory it is in, given
    as a project of its own. *)
Lemma depth_config_file (dir file : string) :
  length (JS.split "/" file) = 1 →
  JS.endsWith file ".json" = true →
  JS.endsWith dir ".json" = false →
  depth (dir +:+ "/" +:+ file) = depth dir
  ∧ depth dir = Z.of_nat (length (JS.split "/" dir)).
Proof.
  intros Hseg Hfile Hdir. unfold depth.
  change (dir +:+ "/" +:+ file) with (dir +:+ String "/" file).
  rewrite split_append_length, Hseg, Hdir.
  change (dir +:+ String "/" file) with (dir +:+ ("/" +:+ file)).
  rewrite (endsWith_append_l dir) by (by apply endsWith_append_l).
  lia.
Qed.

(** ** The loop of the hook *)

Section Hook.

Variable env : Env.
Variable opts : PluginOptions.
Variable extensions : list string.

Lemma consulted_app (t1 t2 : list Event) :
  consulted (t1 ++ t2) = consulted t1 ++ consulted t2.
Proof. apply omap_app. Qed.

Lemma resolverResolveId_consulted (config : ConfigLoaderSuccess)
    (id importer : string) :
  consulted (resolverResolveId env extensions config id importer).2 = [].
Proof.
  unfold resolverResolveId, resolveWithPaths, resolveWithBaseUrl,
    viteResolve.
  destruct (paths config) as [ps|]; [| reflexivity]. simpl.
  destruct (JS.truthy (createMatchPathAsync env _ _ _ _ _ _)); simpl.
  - destruct (JS.truthy (thisResolve env _ _)); reflexivity.
  - reflexivity.
Qed.

(** A resolver calls no resolver. *)
Lemma resolver_consulted (r : Resolver) (cache : gmap string string)
    (id importer : string) :
  consulted (resolver env opts extensions r cache id importer).2 = [].
Proof.
  resolver_cases env opts r cache id importer.
  - by rewrite resolver_cached.
  - rewrite resolver_eligible by done. apply resolverResolveId_consulted.
  - by rewrite resolver_excluded.
  - by rewrite resolver_not_local.
  - by rewrite resolver_bad_extension.
Qed.

Variables id importer : string.

(** One turn of the loop. *)
Lemma resolveLoop_cons (n : nat) (r : Resolver)
    (cache : gmap string string)
    (rest : list (Resolver * gmap string string)) :
  resolveLoop env opts extensions n ((r, cache) :: rest) id importer
  = let call := resolver env opts extensions r cache id importer in
    if JS.truthy call.1.1
    then ((call.1.1, (r, call.1.2) :: rest),
          EvResolver n id importer :: call.2)
    else
      let next := resolveLoop env opts extensions (S n) rest id importer in
      ((next.1.1, (r, call.1.2) :: next.1.2),
       EvResolver n id importer :: call.2 ++ next.2).
Proof.
  cbn [resolveLoop]. cbv zeta.
  destruct (resolver env opts extensions r cache id importer)
    as [[resolved cache'] t].
  unfold bind at 1 2. cbn [emit fst snd].
  destruct (JS.truthy resolved).
  - cbn [ret app]. by rewrite app_nil_r.
  - destruct (resolveLoop env opts extensions (S n) rest id importer)
      as [[result rest'] t'].
    cbn [bind ret app fst snd]. by rewrite app_nil_r.
Qed.

Lemma consulted_turn (n : nat) (t : list Event) :
  consulted (EvResolver n id importer :: t) = n :: consulted t.
Proof. reflexivity. Qed.

(** The loop answers with the first truthy answer of a resolver, and has
    called the resolvers up to that one, in their order; without a truthy
    answer it has called them all. *)
Lemma resolveLoop_first (rs : list (Resolver * gmap string string))
    (n : nat) :
  let out := resolveLoop env opts extensions n rs id importer in
  match list_find
          (λ rc, JS.truthy (answer env opts extensions rc id importer)
                 = true) rs with
  | Some (k, rc) =>
      out.1.1 = answer env opts extensions rc id importer
      ∧ consulted out.2 = seq n (S k)
  | None => out.1.1 = None ∧ consulted out.2 = seq n (length rs)
  end.
Proof.
  revert n. induction rs as [|[r cache] rest IH]; intros n; cbv zeta.
  - done.
  - rewrite resolveLoop_cons. cbv zeta.
    specialize (IH (S n)). cbv zeta in IH.
    cbn [list_find]. case_decide as Hanswer.
    + unfold answer in Hanswer |- *. cbn [fst snd] in Hanswer |- *.
      rewrite Hanswer. cbn [fst snd].
      by rewrite consulted_turn, resolver_consulted.
    + apply not_true_is_false in Hanswer.
      unfold answer in Hanswer. cbn [fst snd] in Hanswer.
      rewrite Hanswer. cbn [fst snd].
      rewrite consulted_turn, consulted_app, resolver_consulted.
      destruct (list_find _ rest) as [[k rc]|];
        cbn [fmap option_fmap option_map prod_map fst snd app];
        destruct IH as [-> ->]; done.
Qed.

End Hook.

Section Precedence.

Variable env : Env.
Variable opts : PluginOptions.

(** A call of the hook that passes its gate is a run of the loop. *)
Lemma resolveId_eligible (extensions : list string)
    (rs : list (Resolver * gmap string string)) (id importer : string) :
  JS.truthy (Some importer) && negb (relativeImportRE id)
  && negb (Posix.isAbsolute id) = true →
  resolveId env opts extensions rs id (Some importer)
  = resolveLoop env opts extensions 0 rs id importer.
Proof. intros H. unfold resolveId. by rewrite H. Qed.

(** No resolver after one that answers is called. *)
Lemma resolveLoop_stops (extensions : list string)
    (rs : list (Resolver * gmap string string)) (id importer : string)
    (i j : nat) (rc : Resolver * gmap string string) :
  rs !! i = Some rc →
  JS.truthy (answer env opts extensions rc id importer) = true →
  i < j →
  j ∉ consulted (resolveLoop env opts extensions 0 rs id importer).2.
Proof.
  intros Hi Hanswer Hij.
  pose proof (resolveLoop_first env opts extensions id importer rs 0) as H.
  cbv zeta in H.
  destruct (list_find _ rs) as [[k rc']|] eqn:Hfind.
  - destruct H as [_ ->].
    apply list_find_Some in Hfind as (_ & _ & Hleast).
    rewrite elem_of_seq. intros [_ Hj].
    destruct (decide (i < k)) as [Hik | Hik]; [| lia].
    by apply (Hleast i rc Hi Hik).
  - apply list_find_None in Hfind.
    exfalso. apply (proj1 (Forall_forall _ _) Hfind rc); [| done].
    by eapply list_elem_of_lookup_2.
Qed.

Lemma sorted_by_depth_lookup (l : list string) (i j : nat) (a b : string) :
  StronglySorted (λ a b, (depth b ≤ depth a)%Z) l →
  l !! i = Some a → l !! j = Some b → (depth b < depth a)%Z → i < j.
Proof.
  intros Hsorted Hi Hj Hdepth.
  destruct (decide (i < j)) as [? | Hge]; [done|].
  destruct (decide (i = j)) as [-> | Hne].
  - rewrite Hi in Hj. injection Hj as ->. lia.
  - pose proof (StronglySorted_lookup _ l j i b a Hsorted
                  ltac:(lia) Hj Hi) as Hle.
    simpl in Hle. lia.
Qed.

(** The loop calls the resolvers from the first one on, without a gap. *)
Lemma resolveLoop_consulted_seq (extensions : list string)
    (rs : list (Resolver * gmap string string)) (id importer : string) :
  ∃ k, consulted (resolveLoop env opts extensions 0 rs id importer).2
       = seq 0 k.
Proof.
  pose proof (resolveLoop_first env opts extensions id importer rs 0) as H.
  cbv zeta in H.
  destruct (list_find _ rs) as [[k rc]|]; destruct H as [_ ->]; eauto.
Qed.

(** The resolvers installed are those [createResolver] makes for the
    projects found, in their order. *)
Lemma configResolved_fst (viteRoot : string) :
  map fst (configResolved env opts viteRoot)
  = omap (createResolver env) (findProjects env opts viteRoot).
Proof.
  unfold configResolved. rewrite map_map. cbn [fst]. apply map_id.
Qed.

(** Whatever the caches have become, the resolvers are in the order of
    the depth of their projects. *)
Lemma resolvers_sorted (viteRoot : string)
    (rs : list (Resolver * gmap string string)) :
  map fst rs = map fst (configResolved env opts viteRoot) →
  StronglySorted (λ a b, (depth b ≤ depth a)%Z)
    (map (λ rc, projectOf rc.1) rs).
Proof.
  intros Hrs.
  replace (map (λ rc, projectOf rc.1) rs) with (map projectOf (map fst rs))
    by (by rewrite map_map).
  rewrite Hrs, map_map. apply configResolved_sorted.
Qed.

(** C7, as the code has it: the result of [findProjects] holds the
    resolved paths of the projects given or crawled, each as often as it
    was given, in the order of their depth, deepest first, so that of two
    of them the strictly deeper one is there and comes first; the depth of
    a path is the number of its segments, less one when it ends in [.json],
    so that a configuration file has the depth of its directory when the
    directory is written without a slash at its end and does not itself end
    in [.json]; the resolvers installed are those of the projects found
    that load, in the same order; and, whatever the caches have become, the
    resolver of a project that is strictly deeper than another one stands
    before the resolver of the other, is called whenever the other is, and
    when it answers the other is not called.  A call of the hook that
    passes its gate calls the resolvers in their order up to the first one
    that answers, returns that answer, and calls no resolver after it. *)
Theorem deeper_projects_first (viteRoot : string) :
  let listed :=
    map (λ p, Posix.resolve (cwd env) (crawlRoot env opts viteRoot)
                (normalizePath p))
      (listedProjects env opts viteRoot) in
  let projects := findProjects env opts viteRoot in
  let resolvers := configResolved env opts viteRoot in
  let extensions := getFileExtensions (opt_extensions opts) in
  projects ≡ₚ listed
  ∧ StronglySorted (λ a b, (depth b ≤ depth a)%Z) projects
  ∧ (∀ a b : string,
       a ∈ listed → b ∈ listed → (depth b < depth a)%Z →
       (∃ i j : nat, projects !! i = Some a ∧ projects !! j = Some b)
       ∧ ∀ i j : nat,
           projects !! i = Some a → projects !! j = Some b → i < j)
  ∧ (∀ p : string,
       depth p
       = (Z.of_nat (length (JS.split "/" p))
          - (if JS.endsWith p ".json" then 1 else 0))%Z)
  ∧ (∀ dir file : string,
       length (JS.split "/" file) = 1 →
       JS.endsWith file ".json" = true →
       JS.endsWith dir ".json" = false →
       depth (dir +:+ "/" +:+ file) = depth dir)
  ∧ map fst resolvers = omap (createResolver env) projects
  ∧ map (λ rc, projectOf rc.1) resolvers
    = List.filter (configLoads env) projects
  ∧ (∀ (rs : list (Resolver * gmap string string)) (a b : string)
       (rA rB : Resolver),
       map fst rs = map fst resolvers →
       a ∈ listed → b ∈ listed →
       createResolver env a = Some rA → createResolver env b = Some rB →
       (depth b < depth a)%Z →
       (∃ (i j : nat) (cA cB : gmap string string),
          rs !! i = Some (rA, cA) ∧ rs !! j = Some (rB, cB))
       ∧ ∀ (i j : nat) (cA cB : gmap string string),
           rs !! i = Some (rA, cA) → rs !! j = Some (rB, cB) →
           i < j
           ∧ ∀ id importer : string,
               JS.truthy (Some importer) && negb (relativeImportRE id)
               && negb (Posix.isAbsolute id) = true →
               let out := pluginResolveId env opts rs id (Some importer) in
               (∃ k, consulted out.2 = seq 0 k)
               ∧ (j ∈ consulted out.2 → i ∈ consulted out.2)
               ∧ (JS.truthy (answer env opts extensions (rA, cA)
                               id importer) = true →
                  j ∉ consulted out.2))
  ∧ (∀ (extensions : list string)
       (rs : list (Resolver * gmap string string)) (id importer : string),
       JS.truthy (Some importer) && negb (relativeImportRE id)
       && negb (Posix.isAbsolute id) = true →
       let out := resolveId env opts extensions rs id (Some importer) in
       match list_find
               (λ rc, JS.truthy (answer env opts extensions rc id importer)
                      = true) rs with
       | Some (k, rc) =>
           out.1.1 = answer env opts extensions rc id importer
           ∧ consulted out.2 = seq 0 (S k)
       | None => out.1.1 = None ∧ consulted out.2 = seq 0 (length rs)
       end
       ∧ ∀ (i j : nat) (rc : Resolver * gmap string string),
           rs !! i = Some rc →
           JS.truthy (answer env opts extensions rc id importer) = true →
           i < j → j ∉ consulted out.2).
Proof.
  cbv zeta.
  pose proof (findProjects_Permutation env opts viteRoot) as Hperm.
  pose proof (findProjects_sorted env opts viteRoot) as Hsorted.
  split; [exact Hperm|].
  split; [exact Hsorted|].
  split.
  { intros a b Ha Hb Hdepth. split.
    - rewrite <- Hperm in Ha, Hb.
      apply list_elem_of_lookup_1 in Ha as [i Hi].
      apply list_elem_of_lookup_1 in Hb as [j Hj]. eauto.
    - intros i j Hi Hj.
      by apply (sorted_by_depth_lookup _ i j a b Hsorted). }
  split; [reflexivity|].
  split; [intros dir file ???; by apply depth_config_file|].
  split; [apply configResolved_fst|].
  split; [apply configResolved_projects|].
  split.
  - intros rs a b rA rB Hrs Ha Hb HrA HrB Hdepth.
    destruct (createResolver_Some env a rA HrA) as [HpA _].
    destruct (createResolver_Some env b rB HrB) as [HpB _].
    assert (Hin : ∀ p r, p ∈ findProjects env opts viteRoot →
                         createResolver env p = Some r →
                         ∃ i c, rs !! i = Some (r, c)).
    { intros p r Hp Hr.
      assert (Hmem : r ∈ map fst rs).
      { rewrite Hrs, configResolved_fst. apply list_elem_of_omap. eauto. }
      apply list_elem_of_lookup_1 in Hmem as [i Hi].
      rewrite list_lookup_fmap in Hi.
      destruct (rs !! i) as [[r' c]|] eqn:Hlook; [|discriminate].
      cbn in Hi. injection Hi as ->. eauto. }
    rewrite <- Hperm in Ha, Hb. split.
    + destruct (Hin a rA Ha HrA) as (i & cA & Hi).
      destruct (Hin b rB Hb HrB) as (j & cB & Hj).
      exists i, j, cA, cB. done.
    + intros i j cA cB Hi Hj.
      assert (Hij : i < j).
      { apply (sorted_by_depth_lookup
                 (map (λ rc, projectOf rc.1) rs) i j a b).
        - by apply (resolvers_sorted viteRoot).
        - by rewrite list_lookup_fmap, Hi, <- HpA.
        - by rewrite list_lookup_fmap, Hj, <- HpB.
        - done. }
      split; [exact Hij|]. intros id importer Hgate.
      unfold pluginResolveId. rewrite resolveId_eligible by done.
      destruct (resolveLoop_consulted_seq
                  (getFileExtensions (opt_extensions opts)) rs id importer)
        as [k Hk].
      split; [eauto | split].
      * rewrite Hk, !elem_of_seq. lia.
      * intros Hanswer. by apply (resolveLoop_stops _ rs id importer i j
                                    (rA, cA)).
  - intros extensions rs id importer Hgate.
    rewrite resolveId_eligible by done. split.
    + apply resolveLoop_first.
    + intros i j rc. apply resolveLoop_stops.
Qed.

End Precedence.

(** C7, as stated, fails: a configuration file in a directory whose name
    ends in [.json], and one in the directory [/], do not have the depth of
    their directory, and [findProjects] does not treat the two as equals:
    it moves the deeper one to the front. *)
Lemma depth_of_directory_differs :
  Posix.dirname "/proj/conf.json/tsconfig.json" = "/proj/conf.json"
  ∧ depth "/proj/conf.json/tsconfig.json" ≠ depth "/proj/conf.json"
  ∧ findProjects Sample.env
      {| opt_root := None;
         opt_projects := Some ["conf.json"; "conf.json/tsconfig.json"];
         opt_extensions := None; opt_loose := None |} "/proj"
    = ["/proj/conf.json/tsconfig.json"; "/proj/conf.json"]
  ∧ Posix.dirname "/tsconfig.json" = "/"
  ∧ depth "/tsconfig.json" ≠ depth "/"
  ∧ findProjects Sample.env
      {| opt_root := None; opt_projects := Some ["tsconfig.json"; "."];
         opt_extensions := None; opt_loose := None |} "/"
    = ["/"; "/tsconfig.json"].
Proof. vm_compute. repeat split; discriminate. Qed.

(** In the sample workspace, an import of [/proj/packages/a/src/app.ts] is
    put to the resolver of [/proj/packages/a] first, which resolves it
    against its base path; the resolver of [/proj] is not called.  An
    import of [/proj/src/main.ts] is declined by the first resolver and
    resolved by the second. *)
Lemma sample_precedence :
  let resolvers := configResolved Sample.env Sample.opts "/proj" in
  let nested :=
    pluginResolveId Sample.env Sample.opts resolvers "lib/math"
      (Some "/proj/packages/a/src/app.ts") in
  let outer :=
    pluginResolveId Sample.env Sample.opts resolvers "@utils/format"
      (Some "/proj/src/main.ts") in
  nested.1.1 = Some "/proj/packages/a/src/lib/math.ts"
  ∧ consulted nested.2 = [0]
  ∧ outer.1.1 = Some "/proj/src/utils/format.ts"
  ∧ consulted outer.2 = [0; 1].
Proof. vm_compute. repeat split. Qed.


(** * Further properties of the code *)

(** ** Relative specifiers *)

Lemma relativeImportRE_cons (c : ascii) (rest : string) :
  relativeImportRE (String c rest)
  = Ascii.eqb c "."
    && match rest with
       | EmptyString => true
       | String d rest' =>
           Ascii.eqb d "/"
           || (Ascii.eqb d "."
               && match rest' with
                  | EmptyString => true
                  | String e _ => Ascii.eqb e "/"
                  end)
       end.
Proof.
  destruct c as [[] [] [] [] [] [] [] []]; try reflexivity.
  destruct rest as [|d rest']; [reflexivity|].
  destruct d as [[] [] [] [] [] [] [] []]; try reflexivity.
  destruct rest' as [|e rest'']; [reflexivity|].
  destruct e as [[] [] [] [] [] [] [] []]; reflexivity.
Qed.

(** X1: the specifiers [relativeImportRE] matches are [.], [..] and those
    that start with [./] or [../], and no others: a name such as [.env] or
    [..x] is a bare specifier. *)
Theorem relativeImportRE_exactly (id : string) :
  relativeImportRE id = true
  ↔ id = "." ∨ id = ".." ∨ JS.startsWith id "./" = true
    ∨ JS.startsWith id "../" = true.
Proof.
  split.
  - destruct id as [|c rest]; [discriminate|].
    rewrite relativeImportRE_cons.
    intros [->%Ascii.eqb_eq Hrest]%andb_true_iff.
    destruct rest as [|d rest']; [by left|].
    apply orb_true_iff in Hrest as [->%Ascii.eqb_eq | Hrest].
    { right; right; left. reflexivity. }
    apply andb_true_iff in Hrest as [->%Ascii.eqb_eq Hrest].
    destruct rest' as [|e rest'']; [right; by left|].
    apply Ascii.eqb_eq in Hrest as ->.
    right; right; right. reflexivity.
  - intros [-> | [-> | [H | H]]]; [reflexivity | reflexivity | |].
    + by apply relativeImportRE_dot_slash.
    + by apply relativeImportRE_dot_dot_slash.
Qed.

(** ** Ownership of an importer *)

Lemma startsWith_append (s t : string) : JS.startsWith (s +:+ t) s = true.
Proof.
  induction s as [|c s IH]; [reflexivity|].
  rewrite append_cons, startsWith_cons, Ascii.eqb_refl. exact IH.
Qed.

Lemma startsWith_append_both (s t p : string) :
  JS.startsWith (s +:+ t) (s +:+ p) = JS.startsWith t p.
Proof.
  induction s as [|c s IH]; [reflexivity|].
  rewrite !append_cons, startsWith_cons, Ascii.eqb_refl. exact IH.
Qed.

Lemma nodeModulesRE_under_root (rest : string) :
  nodeModulesRE ("node_modules/" +:+ rest) = nodeModulesRE ("/" +:+ rest).
Proof. reflexivity. Qed.

Lemma isLocalDescendant_append (root rest : string) :
  isLocalDescendant (root +:+ rest) root = negb (nodeModulesRE rest).
Proof.
  unfold isLocalDescendant. by rewrite startsWith_append, slice_append.
Qed.

(** X2: for a path written as the root followed by a rest,
    [isLocalDescendant] holds exactly when the rest has no
    [/node_modules/] in it; a path that does not start with the root is
    never local; and as the rest of a file in the [node_modules] directory
    right under the root starts with [node_modules/], without a slash
    before it, such a file is local unless there is a [/node_modules/]
    further down. *)
Theorem isLocalDescendant_rest (root : string) :
  (∀ rest, isLocalDescendant (root +:+ rest) root = negb (nodeModulesRE rest))
  ∧ (∀ path, JS.startsWith path root = false →
             isLocalDescendant path root = false)
  ∧ (∀ rest, isLocalDescendant (root +:+ "node_modules/" +:+ rest) root
             = negb (nodeModulesRE ("/" +:+ rest))).
Proof.
  split; [apply isLocalDescendant_append | split].
  - intros path H. unfold isLocalDescendant. by rewrite H.
  - intros rest.
    by rewrite isLocalDescendant_append, nodeModulesRE_under_root.
Qed.

(** X3: the root of a resolver ends with the slash [createResolver] adds,
    so the resolver owns the files under its directory and not those of a
    directory whose name only starts like its own: after the directory, a
    rest that does not start with a slash is never local, and a rest
    [/rel] is local exactly when [rel] has no [/node_modules/] in it. *)
Theorem createResolver_root_slash (env : Env) (p : string) (r : Resolver) :
  createResolver env p = Some r →
  ∃ dir, root r = dir +:+ "/"
         ∧ dir = (if JS.endsWith p ".json" then Posix.dirname p else p)
         ∧ (∀ rest, JS.startsWith rest "/" = false →
                    isLocalDescendant (dir +:+ rest) (root r) = false)
         ∧ (∀ rel, isLocalDescendant (dir +:+ "/" +:+ rel) (root r)
                   = negb (nodeModulesRE rel)).
Proof.
  rewrite createResolver_unfold.
  destruct (loadConfig env (configLocation p)) as [config | message];
    [| discriminate].
  intros [= <-]. cbn [root].
  exists (if JS.endsWith p ".json" then Posix.dirname p else p).
  split; [reflexivity | split; [reflexivity | split]].
  - intros rest Hrest. unfold isLocalDescendant.
    by rewrite startsWith_append_both, Hrest.
  - intros rel. rewrite <- append_assoc.
    apply isLocalDescendant_append.
Qed.

Lemma createResolver_root_slash_witness :
  isLocalDescendant "/projects/x.ts" (root Sample.rootResolver) = false.
Proof.
  destruct (createResolver_root_slash Sample.env "/proj/tsconfig.json"
              Sample.rootResolver eq_refl) as (dir & _ & Hdir & Hsibling & _).
  subst dir. exact (Hsibling "ects/x.ts" eq_refl).
Defined.

(** ** Globs and the inclusion filter, further *)

Section IncluderLaws.

Variable env : Env.

(** X4: the pattern [compileGlob] hands to globrex always ends in a star,
    and compiling that pattern gives the same matcher again: the suffix is
    added once. *)
Theorem compileGlob_star_suffix (glob : string) :
  let compiled := if JS.endsWith glob "*" then glob else glob +:+ "**/*" in
  compileGlob env glob = globRex env compiled
  ∧ JS.endsWith compiled "*" = true
  ∧ compileGlob env compiled = compileGlob env glob.
Proof.
  cbv zeta. destruct (compileGlob_suffix env glob) as [Hno Hyes].
  destruct (JS.endsWith glob "*") eqn:Hstar.
  - rewrite Hyes by done. done.
  - assert (Hends : JS.endsWith (glob +:+ "**/*") "*" = true)
      by (by apply endsWith_append_l).
    rewrite Hno by done.
    destruct (compileGlob_suffix env (glob +:+ "**/*")) as [_ Hyes'].
    rewrite Hyes' by done. done.
Qed.

Lemma include_part_permutation (inc inc' : list string) (path : string) :
  inc ≡ₚ inc' →
  match inc with
  | [] => true
  | _ => existsb (fun glob : string → bool => glob path)
           (map (compileGlob env) inc)
  end
  = match inc' with
    | [] => true
    | _ => existsb (fun glob : string → bool => glob path)
             (map (compileGlob env) inc')
    end.
Proof.
  intros Hperm. apply eq_true_iff_eq.
  rewrite !some_include_matches. split.
  - intros [-> | (g & Hg & Hm)].
    + left. by apply Permutation.Permutation_nil.
    + right. exists g. by rewrite <- Hperm.
  - intros [-> | (g & Hg & Hm)].
    + left. apply Permutation.Permutation_nil. by symmetry.
    + right. exists g. by rewrite Hperm.
Qed.

Lemma exclude_part_permutation (exc exc' : list string) (path : string) :
  exc ≡ₚ exc' →
  match exc with
  | [] => true
  | _ => negb (existsb (fun glob : string → bool => glob path)
                 (map (compileGlob env) exc))
  end
  = match exc' with
    | [] => true
    | _ => negb (existsb (fun glob : string → bool => glob path)
                   (map (compileGlob env) exc'))
    end.
Proof.
  intros Hperm. apply eq_true_iff_eq.
  rewrite !no_exclude_matches. split.
  - intros [-> | Hall].
    + left. by apply Permutation.Permutation_nil.
    + right. intros g Hg. apply Hall. by rewrite Hperm.
  - intros [-> | Hall].
    + left. apply Permutation.Permutation_nil. by symmetry.
    + right. intros g Hg. apply Hall. by rewrite <- Hperm.
Qed.

(** X5: the filter does not depend on the order of the patterns: include
    lists that are permutations of each other, and exclude lists that are,
    give the same filter, whatever [allowJs] is. *)
Theorem getIncluder_permutation (inc inc' exc exc' : list string)
    (js js' : option bool) (path : string) :
  inc ≡ₚ inc' → exc ≡ₚ exc' →
  getIncluder env {| include := Some inc; exclude := Some exc;
                     allowJs := js |} path
  = getIncluder env {| include := Some inc'; exclude := Some exc';
                       allowJs := js' |} path.
Proof.
  intros Hinc Hexc. rewrite !getIncluder_unfold. cbn [include exclude default].
  by rewrite (include_part_permutation inc inc'),
       (exclude_part_permutation exc exc').
Qed.

Lemma exclude_part_negb (exc : list string) (path : string) :
  match exc with
  | [] => true
  | _ => negb (existsb (fun glob : string → bool => glob path)
                 (map (compileGlob env) exc))
  end
  = negb (existsb (fun glob : string → bool => glob path)
            (map (compileGlob env) exc)).
Proof. by destruct exc. Qed.

(** X6: exclude lists add up: a path passes the filter with the exclude
    list [exc1 ++ exc2] exactly when it passes with [exc1] and with [exc2],
    the include list being the same; so a longer exclude list never accepts
    a path a shorter one rejects. *)
Theorem getIncluder_exclude_app (inc : option (list string))
    (exc1 exc2 : list string) (js : option bool) (path : string) :
  getIncluder env {| include := inc; exclude := Some (exc1 ++ exc2);
                     allowJs := js |} path
  = getIncluder env {| include := inc; exclude := Some exc1;
                       allowJs := js |} path
    && getIncluder env {| include := inc; exclude := Some exc2;
                          allowJs := js |} path.
Proof.
  rewrite !getIncluder_unfold. cbn [include exclude default].
  destruct (match default [] inc with
            | [] => true
            | _ => existsb (fun glob : string → bool => glob path)
                     (map (compileGlob env) (default [] inc))
            end); [| reflexivity].
  cbn [andb]. unfold id.
  rewrite !exclude_part_negb. by rewrite map_app, existsb_app, negb_orb.
Qed.

End IncluderLaws.

Lemma getIncluder_permutation_witness :
  getIncluder Sample.env
    {| include := Some ["src"; "lib"]; exclude := Some ["src/generated"];
       allowJs := None |} "lib/app.ts"
  = getIncluder Sample.env
      {| include := Some ["lib"; "src"]; exclude := Some ["src/generated"];
         allowJs := Some true |} "lib/app.ts".
Proof.
  apply (getIncluder_permutation Sample.env).
  - apply Permutation_swap.
  - reflexivity.
Defined.

(** ** The cache of a resolver *)

Lemma truthy_Some (v : option string) :
  JS.truthy v = true → ∃ p, v = Some p ∧ p ≠ "".
Proof.
  destruct v as [[|c p]|]; try discriminate. intros _. by eexists.
Qed.

Lemma truthy_nonempty (p : string) : p ≠ "" → JS.truthy (Some p) = true.
Proof. by destruct p. Qed.

Section Cache.

Variable env : Env.
Variable opts : PluginOptions.
Variable extensions : list string.
Variable r : Resolver.
Variable cache : gmap string string.
Variables id importer : string.

(** The cache after a call that got past the checks. *)
Lemma resolver_eligible_cache :
  importerExtRE opts (compilerOptions r) importer = true →
  JS.truthy (cache !! id) = false →
  isLocalDescendant importer (root r) = true →
  getIncluder env (compilerOptions r)
    (JS.slice importer (String.length (root r))) = true →
  ∀ k, (resolver env opts extensions r cache id importer).1.2 !! k
       = if decide (k = id)
         then (if JS.truthy
                    (resolver env opts extensions r cache id importer).1.1
               then (resolver env opts extensions r cache id importer).1.1
               else cache !! id)
         else cache !! k.
Proof.
  intros Hext Hmiss Hlocal Hinc k.
  rewrite resolver_eligible by done. cbv zeta. cbn [fst snd].
  destruct (JS.truthy (resolverResolveId env extensions (config r)
                         id importer).1) eqn:Hrun.
  - apply truthy_Some in Hrun as (p & Hp & _). rewrite Hp. cbn [default].
    case_decide as Hk.
    + subst k. apply lookup_insert_eq.
    + by rewrite lookup_insert_ne.
  - case_decide; by subst.
Qed.

(** A truthy answer is the entry of the specifier afterwards. *)
Lemma resolver_truthy_answer_cached :
  JS.truthy (resolver env opts extensions r cache id importer).1.1 = true →
  (resolver env opts extensions r cache id importer).1.2 !! id
  = (resolver env opts extensions r cache id importer).1.1.
Proof.
  resolver_cases env opts r cache id importer.
  - by rewrite resolver_cached.
  - intros Htruthy. rewrite resolver_eligible_cache by done.
    rewrite decide_True by done. by rewrite Htruthy.
  - by rewrite resolver_excluded.
  - by rewrite resolver_not_local.
  - by rewrite resolver_bad_extension.
Qed.

(** X7: a call changes no entry of another specifier and no entry that
    holds a path; the one entry it can change is that of its own
    specifier, and then the new entry is the path the call returns. *)
Theorem resolver_cache_frame (k : string) :
  let out := resolver env opts extensions r cache id importer in
  (k ≠ id → out.1.2 !! k = cache !! k)
  ∧ (JS.truthy (cache !! k) = true → out.1.2 !! k = cache !! k)
  ∧ (out.1.2 !! k ≠ cache !! k →
     k = id ∧ JS.truthy out.1.1 = true ∧ out.1.2 !! k = out.1.1).
Proof.
  cbv zeta. resolver_cases env opts r cache id importer.
  - rewrite resolver_cached by done. done.
  - pose proof (resolver_eligible_cache Hext Hhit Hlocal Hinc k) as Hk.
    rewrite Hk. clear Hk. case_decide as Hk; [subst k|done].
    split; [done|]. split; [congruence|].
    destruct (JS.truthy (resolver env opts extensions r cache id
                           importer).1.1); done.
  - rewrite resolver_excluded by done. done.
  - rewrite resolver_not_local by done. done.
  - rewrite resolver_bad_extension by done. done.
Qed.

(** X8: a cache that holds no empty string holds none after a call, and
    the call only adds to it: every entry it had it still has. *)
Theorem resolver_cache_grows :
  map_Forall (λ _ v, v ≠ "") cache →
  let out := resolver env opts extensions r cache id importer in
  map_Forall (λ _ v, v ≠ "") out.1.2 ∧ cache ⊆ out.1.2.
Proof.
  intros Hcache. cbv zeta. resolver_cases env opts r cache id importer.
  - rewrite resolver_cached by done. done.
  - rewrite resolver_eligible by done. cbv zeta. cbn [fst snd].
    destruct (JS.truthy (resolverResolveId env extensions (config r)
                           id importer).1) eqn:Hrun; [|done].
    apply truthy_Some in Hrun as (p & -> & Hp). cbn [default].
    assert (Hnone : cache !! id = None).
    { destruct (cache !! id) as [v|] eqn:Hv; [|done].
      apply Hcache in Hv. by rewrite truthy_nonempty in Hhit. }
    split; [by apply map_Forall_insert_2 | by apply insert_subseteq].
  - rewrite resolver_excluded by done. done.
  - rewrite resolver_not_local by done. done.
  - rewrite resolver_bad_extension by done. done.
Qed.

(** X9: once a call has returned a path for a specifier, every later call
    for that specifier returns this path from the cache and attempts
    nothing, whatever the importer is, provided it has an accepted
    extension: neither the root nor the inclusion filter is looked at
    again. *)
Theorem resolver_hit_any_importer (importer' : string) :
  let first := resolver env opts extensions r cache id importer in
  JS.truthy first.1.1 = true →
  importerExtRE opts (compilerOptions r) importer' = true →
  resolver env opts extensions r first.1.2 id importer'
  = ((first.1.1, first.1.2), []).
Proof.
  cbv zeta. intros Htruthy Hext'.
  pose proof (resolver_truthy_answer_cached Htruthy) as Hcached.
  rewrite resolver_cached; rewrite ?Hcached; done.
Qed.

(** A second call with the same arguments answers as the first and
    leaves the cache as the first left it. *)
Lemma resolver_repeat :
  let first := resolver env opts extensions r cache id importer in
  let second := resolver env opts extensions r first.1.2 id importer in
  second.1.1 = first.1.1 ∧ second.1.2 = first.1.2.
Proof.
  cbv zeta.
  destruct (JS.truthy (resolver env opts extensions r cache id
                         importer).1.1) eqn:Htruthy.
  - assert (Hext : importerExtRE opts (compilerOptions r) importer = true).
    { destruct (importerExtRE opts (compilerOptions r) importer) eqn:Hext;
        [done|]. by rewrite resolver_bad_extension in Htruthy. }
    pose proof (resolver_truthy_answer_cached Htruthy) as Hcached.
    rewrite (resolver_cached _ _ _ _ _ _ importer);
      rewrite ?Hcached; done.
  - revert Htruthy. resolver_cases env opts r cache id importer.
    + rewrite resolver_cached by done. cbn [fst snd]. congruence.
    + rewrite (resolver_eligible _ _ _ _ cache) by done. cbv zeta.
      cbn [fst snd]. intros Hrun. rewrite Hrun.
      rewrite (resolver_eligible _ _ _ _ cache) by done. cbv zeta.
      cbn [fst snd]. by rewrite Hrun.
    + intros _. by rewrite !(resolver_excluded _ _ _ _ cache).
    + intros _. by rewrite !(resolver_not_local _ _ _ _ cache).
    + intros _. by rewrite !resolver_bad_extension.
Qed.

Lemma resolverResolveId_confirmed (c : ConfigLoaderSuccess) (v : string) :
  (resolverResolveId env extensions c id importer).1 = Some v →
  confirmed env v.
Proof.
  unfold resolverResolveId, resolveWithPaths, resolveWithBaseUrl,
    viteResolve, confirmed.
  destruct (paths c) as [ps|]; cbn; [| eauto].
  destruct (JS.truthy (createMatchPathAsync env _ _ _ _ _ _)); cbn.
  - destruct (JS.truthy (thisResolve env _ _)) eqn:Hvia; cbn; eauto.
  - eauto.
Qed.

Lemma resolverResolveId_length (c : ConfigLoaderSuccess) :
  (length (resolverResolveId env extensions c id importer).2 ≤ 3)%nat.
Proof.
  unfold resolverResolveId, resolveWithPaths, resolveWithBaseUrl, viteResolve.
  destruct (paths c) as [ps|]; cbn; [| lia].
  destruct (JS.truthy (createMatchPathAsync env _ _ _ _ _ _)); cbn.
  - destruct (JS.truthy (thisResolve env _ _)); cbn; lia.
  - lia.
Qed.

(** A resolver whose cache holds confirmed ids answers with a confirmed
    id, and its cache holds confirmed ids afterwards. *)
Lemma resolver_confirmed :
  map_Forall (λ _ v, confirmed env v) cache →
  (∀ v, (resolver env opts extensions r cache id importer).1.1 = Some v →
        confirmed env v)
  ∧ map_Forall (λ _ v, confirmed env v)
      (resolver env opts extensions r cache id importer).1.2.
Proof.
  intros Hcache. resolver_cases env opts r cache id importer.
  - rewrite resolver_cached by done. split; [|done].
    intros v Hv. by apply (Hcache id).
  - rewrite resolver_eligible by done. cbv zeta. cbn [fst snd].
    split; [intros v; apply (resolverResolveId_confirmed (config r))|].
    destruct (JS.truthy (resolverResolveId env extensions (config r)
                           id importer).1) eqn:Hrun; [|done].
    apply truthy_Some in Hrun as (p & Hp & _). rewrite Hp. cbn [default].
    apply map_Forall_insert_2; [|done].
    by apply (resolverResolveId_confirmed (config r)).
  - rewrite resolver_excluded by done. done.
  - rewrite resolver_not_local by done. split; [|done].
    intros v Hv. by apply (Hcache id).
  - rewrite resolver_bad_extension by done. done.
Qed.

(** A call of a resolver makes three attempts at most. *)
Lemma resolver_length :
  (length (resolver env opts extensions r cache id importer).2 ≤ 3)%nat.
Proof.
  resolver_cases env opts r cache id importer.
  - rewrite resolver_cached by done. cbn. lia.
  - rewrite resolver_eligible by done. apply resolverResolveId_length.
  - rewrite resolver_excluded by done. cbn. lia.
  - rewrite resolver_not_local by done. cbn. lia.
  - rewrite resolver_bad_extension by done. cbn. lia.
Qed.

End Cache.

Lemma resolver_cache_grows_witness :
  ∅ ⊆ (resolver Sample.env Sample.opts requiredExts Sample.rootResolver ∅
         "@utils/format" "/proj/src/main.ts").1.2.
Proof.
  apply (resolver_cache_grows Sample.env Sample.opts requiredExts
           Sample.rootResolver ∅ "@utils/format" "/proj/src/main.ts").
  apply map_Forall_empty.
Defined.

Lemma resolver_hit_any_importer_witness :
  (resolver Sample.env Sample.opts requiredExts Sample.rootResolver
     (resolver Sample.env Sample.opts requiredExts Sample.rootResolver ∅
        "@utils/format" "/proj/src/main.ts").1.2
     "@utils/format" "/elsewhere/index.ts").2 = [].
Proof.
  pose proof (resolver_hit_any_importer Sample.env Sample.opts requiredExts
                Sample.rootResolver ∅ "@utils/format" "/proj/src/main.ts"
                "/elsewhere/index.ts" eq_refl eq_refl) as H.
  exact (f_equal snd H).
Defined.

(** ** The hook and the state of the resolvers *)

Section HookState.

Variable env : Env.
Variable opts : PluginOptions.
Variable extensions : list string.
Variables id importer : string.

Lemma consulted_turn_quiet (n : nat) (r : Resolver)
    (cache : gmap string string) (t : list Event) :
  consulted (EvResolver n id importer
             :: (resolver env opts extensions r cache id importer).2 ++ t)
  = n :: consulted t.
Proof.
  rewrite consulted_turn, consulted_app, resolver_consulted. reflexivity.
Qed.

Lemma consulted_turn_last (n : nat) (r : Resolver)
    (cache : gmap string string) :
  consulted (EvResolver n id importer
             :: (resolver env opts extensions r cache id importer).2)
  = [n].
Proof. by rewrite consulted_turn, resolver_consulted. Qed.

(** After the loop every resolver is in its place, with the cache its own
    call left if it was called, and with the cache it had if not. *)
Lemma resolveLoop_state (rs : list (Resolver * gmap string string)) :
  ∀ n : nat,
    let out := resolveLoop env opts extensions n rs id importer in
    length out.1.2 = length rs
    ∧ ∀ (i : nat) (rc : Resolver * gmap string string),
        rs !! i = Some rc →
        out.1.2 !! i
        = Some (rc.1,
                if bool_decide (n + i ∈ consulted out.2)
                then (resolver env opts extensions rc.1 rc.2 id importer).1.2
                else rc.2).
Proof.
  induction rs as [|[r cache] rest IH]; intros n; cbv zeta.
  - split; [reflexivity|]. intros i rc Hi. by rewrite lookup_nil in Hi.
  - rewrite resolveLoop_cons. cbv zeta.
    destruct (JS.truthy (resolver env opts extensions r cache id
                           importer).1.1).
    + cbn [fst snd]. rewrite consulted_turn_last.
      split; [reflexivity|]. intros [|i] rc Hi; cbn in Hi.
      * injection Hi as <-. cbn [lookup list_lookup fst snd].
        rewrite bool_decide_eq_true_2; [done|].
        rewrite Nat.add_0_r. apply list_elem_of_here.
      * cbn [lookup list_lookup]. change (rest !! i = Some rc) in Hi.
        change (rest !! i = Some (rc.1,
                  if bool_decide (n + S i ∈ [n])
                  then (resolver env opts extensions rc.1 rc.2
                          id importer).1.2
                  else rc.2)).
        rewrite bool_decide_eq_false_2.
        -- rewrite Hi. by destruct rc.
        -- intros Hin%list_elem_of_singleton. lia.
    + destruct (IH (S n)) as [Hlen Hstate]. cbn [fst snd].
      rewrite consulted_turn_quiet.
      split; [cbn; by rewrite Hlen|]. intros [|i] rc Hi; cbn in Hi.
      * injection Hi as <-. cbn [lookup list_lookup fst snd].
        rewrite bool_decide_eq_true_2; [done|].
        rewrite Nat.add_0_r. apply list_elem_of_here.
      * change (rest !! i = Some rc) in Hi.
        change ((resolveLoop env opts extensions (S n) rest id importer).1.2
                  !! i
                = Some (rc.1,
                    if bool_decide
                         (n + S i
                          ∈ n :: consulted
                                   (resolveLoop env opts extensions (S n)
                                      rest id importer).2)
                    then (resolver env opts extensions rc.1 rc.2
                            id importer).1.2
                    else rc.2)).
        rewrite (Hstate i rc Hi).
        rewrite (bool_decide_ext
                   (n + S i
                    ∈ n :: consulted
                             (resolveLoop env opts extensions (S n) rest
                                id importer).2)
                   (S n + i
                    ∈ consulted
                        (resolveLoop env opts extensions (S n) rest
                           id importer).2)); [done|].
        rewrite elem_of_cons.
        replace (n + S i) with (S n + i) by lia. split; [|by right].
        intros [? | ?]; [lia | done].
Qed.

(** A second run of the loop over the resolvers the first run left gives
    the result of the first and leaves them as they are. *)
Lemma resolveLoop_repeat (rs : list (Resolver * gmap string string)) :
  ∀ n : nat,
    let first := resolveLoop env opts extensions n rs id importer in
    let second := resolveLoop env opts extensions n first.1.2 id importer in
    second.1 = first.1 ∧ consulted second.2 = consulted first.2.
Proof.
  induction rs as [|[r cache] rest IH]; intros n; cbv zeta.
  - done.
  - rewrite (resolveLoop_cons _ _ _ _ _ n r cache rest). cbv zeta.
    destruct (resolver_repeat env opts extensions r cache id importer)
      as [Hanswer Hcache].
    destruct (JS.truthy (resolver env opts extensions r cache id
                           importer).1.1) eqn:Htruthy; cbn [fst snd].
    + rewrite resolveLoop_cons. cbv zeta.
      rewrite Hanswer, Hcache, Htruthy. cbn [fst snd].
      by rewrite !consulted_turn_last.
    + rewrite resolveLoop_cons. cbv zeta.
      rewrite Hanswer, Hcache, Htruthy. cbn [fst snd].
      destruct (IH (S n)) as [Hsame Hcalls].
      rewrite Hsame, !consulted_turn_quiet, Hcalls. done.
Qed.

Lemma attempts_app (t1 t2 : list Event) :
  attempts (t1 ++ t2) = attempts t1 ++ attempts t2.
Proof. apply List.filter_app. Qed.

Lemma attempts_length (t : list Event) : (length (attempts t) ≤ length t)%nat.
Proof. apply List.filter_length_le. Qed.

Lemma resolveLoop_attempts (rs : list (Resolver * gmap string string)) :
  ∀ n : nat,
    let out := resolveLoop env opts extensions n rs id importer in
    (length (attempts out.2) ≤ 3 * length (consulted out.2))%nat
    ∧ (length (consulted out.2) ≤ length rs)%nat.
Proof.
  induction rs as [|[r cache] rest IH]; intros n; cbv zeta.
  - cbn. lia.
  - rewrite resolveLoop_cons. cbv zeta.
    pose proof (attempts_length
                  (resolver env opts extensions r cache id importer).2).
    pose proof (resolver_length env opts extensions r cache id importer).
    destruct (JS.truthy (resolver env opts extensions r cache id
                           importer).1.1); cbn [fst snd].
    + rewrite consulted_turn_last.
      change (attempts (EvResolver n id importer
                        :: (resolver env opts extensions r cache id
                              importer).2))
        with (attempts (resolver env opts extensions r cache id importer).2).
      cbn [length]. lia.
    + destruct (IH (S n)) as [Hattempts Hcalls].
      rewrite consulted_turn_quiet.
      change (attempts (EvResolver n id importer :: ?t)) with (attempts t).
      change (attempts
                (EvResolver n id importer
                 :: (resolver env opts extensions r cache id importer).2
                    ++ (resolveLoop env opts extensions (S n) rest id
                          importer).2))
        with (attempts
                ((resolver env opts extensions r cache id importer).2
                 ++ (resolveLoop env opts extensions (S n) rest id
                       importer).2)).
      rewrite attempts_app, length_app. cbn [length]. lia.
Qed.

Lemma resolveLoop_confirmed (rs : list (Resolver * gmap string string)) :
  Forall (λ rc, map_Forall (λ _ v, confirmed env v) rc.2) rs →
  ∀ n : nat,
    let out := resolveLoop env opts extensions n rs id importer in
    (out.1.1 = None
     ∨ ∃ v, out.1.1 = Some v ∧ v ≠ "" ∧ confirmed env v)
    ∧ Forall (λ rc, map_Forall (λ _ v, confirmed env v) rc.2) out.1.2.
Proof.
  induction rs as [|[r cache] rest IH]; intros Hall n; cbv zeta.
  - split; [by left | done].
  - apply Forall_cons in Hall as [Hcache Hrest]. cbn [snd] in Hcache.
    rewrite resolveLoop_cons. cbv zeta.
    destruct (resolver_confirmed env opts extensions r cache id importer
                Hcache) as [Hanswer Hcache'].
    destruct (JS.truthy (resolver env opts extensions r cache id
                           importer).1.1) eqn:Htruthy; cbn [fst snd].
    + split; [| by apply Forall_cons].
      right. apply truthy_Some in Htruthy as (v & Hv & Hne).
      exists v. split; [done | split; [done | by apply Hanswer]].
    + destruct (IH Hrest (S n)) as [Hresult Hstate].
      split; [done | by apply Forall_cons].
Qed.

End HookState.

Section HookLaws.

Variable env : Env.
Variable opts : PluginOptions.
Variable extensions : list string.
Variable rs : list (Resolver * gmap string string).
Variable id : string.
Variable importer : option string.

(** X10: a call of the hook keeps every resolver in its place and changes
    nothing of it but its cache; a resolver the call consulted has the
    cache its own call left, and a resolver the call did not consult has
    the cache it had: no resolver writes to the cache of another. *)
Theorem resolveId_resolvers_state :
  let out := resolveId env opts extensions rs id importer in
  length out.1.2 = length rs
  ∧ ∀ (i : nat) (rc : Resolver * gmap string string),
      rs !! i = Some rc →
      out.1.2 !! i
      = Some (rc.1,
              if bool_decide (i ∈ consulted out.2)
              then (resolver env opts extensions rc.1 rc.2 id
                      (default "" importer)).1.2
              else rc.2).
Proof.
  cbv zeta. unfold resolveId.
  destruct (JS.truthy importer && negb (relativeImportRE id)
            && negb (Posix.isAbsolute id)).
  - apply (resolveLoop_state env opts extensions id (default "" importer)
             rs 0).
  - split; [reflexivity|]. intros i rc Hi. cbn [ret fst snd consulted omap
      list_omap].
    rewrite bool_decide_eq_false_2 by apply not_elem_of_nil.
    rewrite Hi. by destruct rc.
Qed.

(** X11: calling the hook again with the same specifier and importer, on
    the resolvers as the first call left them, gives the same result,
    consults the same resolvers and leaves every cache as it is. *)
Theorem resolveId_twice :
  let first := resolveId env opts extensions rs id importer in
  let second := resolveId env opts extensions first.1.2 id importer in
  second.1 = first.1 ∧ consulted second.2 = consulted first.2.
Proof.
  cbv zeta. unfold resolveId.
  destruct (JS.truthy importer && negb (relativeImportRE id)
            && negb (Posix.isAbsolute id)).
  - apply (resolveLoop_repeat env opts extensions id (default "" importer)
             rs 0).
  - done.
Qed.

(** X12: a call of the hook makes at most three resolution attempts
    (runs of the alias matcher and calls of Vite's resolver) for every
    resolver it consults, and it consults each resolver at most once. *)
Theorem resolveId_attempts_bound :
  let out := resolveId env opts extensions rs id importer in
  (length (attempts out.2) ≤ 3 * length (consulted out.2))%nat
  ∧ (length (consulted out.2) ≤ length rs)%nat
  ∧ NoDup (consulted out.2).
Proof.
  cbv zeta. unfold resolveId.
  destruct (JS.truthy importer && negb (relativeImportRE id)
            && negb (Posix.isAbsolute id)).
  - destruct (resolveLoop_attempts env opts extensions id
                (default "" importer) rs 0) as [Hattempts Hcalls].
    split; [done | split; [done|]].
    pose proof (resolveLoop_first env opts extensions id
                  (default "" importer) rs 0) as Hfirst.
    cbv zeta in Hfirst.
    destruct (list_find _ rs) as [[k rc]|]; destruct Hfirst as [_ ->];
      apply NoDup_seq.
  - cbn. split; [lia | split; [lia | constructor]].
Qed.

(** X13: when the caches hold only ids that Vite's resolver has given, the
    hook returns nothing or such an id, never the empty string, and the
    caches hold only such ids afterwards. *)
Theorem resolveId_confirmed :
  Forall (λ rc, map_Forall (λ _ v, confirmed env v) rc.2) rs →
  let out := resolveId env opts extensions rs id importer in
  (out.1.1 = None ∨ ∃ v, out.1.1 = Some v ∧ v ≠ "" ∧ confirmed env v)
  ∧ Forall (λ rc, map_Forall (λ _ v, confirmed env v) rc.2) out.1.2.
Proof.
  intros Hall. cbv zeta. unfold resolveId.
  destruct (JS.truthy importer && negb (relativeImportRE id)
            && negb (Posix.isAbsolute id)).
  - by apply resolveLoop_confirmed.
  - split; [by left | done].
Qed.

End HookLaws.

(** The resolvers [configResolved] installs have empty caches, so the
    first call of the hook returns nothing or an id of Vite's resolver. *)
Lemma resolveId_confirmed_witness :
  let out :=
    pluginResolveId Sample.env Sample.opts
      (configResolved Sample.env Sample.opts "/proj")
      "@utils/format" (Some "/proj/src/main.ts") in
  out.1.1 = None
  ∨ ∃ v, out.1.1 = Some v ∧ v ≠ "" ∧ confirmed Sample.env v.
Proof.
  apply (resolveId_confirmed Sample.env Sample.opts).
  apply Forall_forall. intros rc [Hempty _]%configResolved_elem.
  rewrite Hempty. apply map_Forall_empty.
Defined.

(** ** Nested configurations *)

Lemma split_length_pos (sep : ascii) (s : string) :
  (1 ≤ length (JS.split sep s))%nat.
Proof.
  pose proof (split_nonempty sep s). destruct (JS.split sep s); [done|].
  cbn. lia.
Qed.

Lemma depth_nested (dir sub f1 f2 : string) :
  length (JS.split "/" f1) = 1 →
  JS.endsWith f1 ".json" = true →
  JS.endsWith f2 ".json" = true →
  (depth (dir +:+ "/" +:+ f1) < depth (dir +:+ "/" +:+ sub +:+ "/" +:+ f2))%Z.
Proof.
  intros Hseg Hf1 Hf2. unfold depth.
  change (dir +:+ "/" +:+ f1) with (dir +:+ String "/" f1).
  change (dir +:+ "/" +:+ sub +:+ "/" +:+ f2)
    with (dir +:+ String "/" (sub +:+ String "/" f2)).
  rewrite !split_append_length, Hseg.
  rewrite (endsWith_append_l dir (String "/" f1))
    by (by apply (endsWith_append_l "/")).
  rewrite (endsWith_append_l dir (String "/" (sub +:+ String "/" f2)))
    by (apply (endsWith_append_l "/"), endsWith_append_l;
        by apply (endsWith_append_l "/")).
  pose proof (split_length_pos "/" sub).
  pose proof (split_length_pos "/" f2).
  lia.
Qed.

(** X14: a configuration file below the directory of another one comes
    before it in the result of [findProjects], wherever the two were in
    the list that was given or crawled. *)
Theorem nested_configuration_first (env : Env) (opts : PluginOptions)
    (viteRoot dir sub f1 f2 : string) (i j : nat) :
  length (JS.split "/" f1) = 1 →
  JS.endsWith f1 ".json" = true →
  JS.endsWith f2 ".json" = true →
  findProjects env opts viteRoot !! i = Some (dir +:+ "/" +:+ f1) →
  findProjects env opts viteRoot !! j
  = Some (dir +:+ "/" +:+ sub +:+ "/" +:+ f2) →
  j < i.
Proof.
  intros Hseg Hf1 Hf2 Hi Hj.
  apply (sorted_by_depth_lookup (findProjects env opts viteRoot) j i
           (dir +:+ "/" +:+ sub +:+ "/" +:+ f2) (dir +:+ "/" +:+ f1)).
  - apply findProjects_sorted.
  - exact Hj.
  - exact Hi.
  - by apply depth_nested.
Qed.

Lemma nested_configuration_first_witness : 0 < 2.
Proof.
  apply (nested_configuration_first Sample.env Sample.opts "/proj" "/proj"
           "packages/a" "tsconfig.json" "tsconfig.json" 2 0);
    reflexivity.
Defined.

(** ** The extensions of importers *)

Lemma list_ascii_of_string_append (s t : string) :
  list_ascii_of_string (s +:+ t)
  = list_ascii_of_string s ++ list_ascii_of_string t.
Proof.
  induction s as [|c s IH]; [reflexivity|].
  rewrite append_cons. cbn. by rewrite IH.
Qed.

Lemma anyCharRE_endsWith (s suf : string) (c : ascii) :
  JS.lineTerminator c = false →
  JS.endsWith s (String c suf) = true → anyCharRE s = true.
Proof.
  intros Hc [pre ->]%endsWith_inv. unfold anyCharRE.
  rewrite list_ascii_of_string_append, existsb_app. cbn [list_ascii_of_string
    existsb]. by rewrite Hc, orb_true_r.
Qed.

Lemma tsExtRE_jsExtRE (s : string) : tsExtRE s = true → jsExtRE s = true.
Proof.
  unfold tsExtRE, jsExtRE. cbn [existsb].
  intros [H | H]%orb_true_iff; rewrite H; by rewrite ?orb_true_r.
Qed.

Lemma jsExtRE_anyCharRE (s : string) : jsExtRE s = true → anyCharRE s = true.
Proof.
  unfold jsExtRE. intros (suf & Hin & Hends)%existsb_exists.
  cbn [In] in Hin.
  repeat (destruct Hin as [<- | Hin];
          [by eapply (anyCharRE_endsWith s _ "."); [|exact Hends] |]).
  done.
Qed.

(** X15: loosening the options never turns an importer away that was
    accepted before: what is accepted without [allowJs] is accepted with
    it, and what is accepted by either is accepted in loose mode. *)
Theorem importerExtRE_widens (opts opts' : PluginOptions)
    (co co' : CompilerOptions) (s : string) :
  JS.truthyb (opt_loose opts') = true
  ∨ (JS.truthyb (opt_loose opts) = false
     ∧ (JS.truthyb (allowJs co) = true → JS.truthyb (allowJs co') = true)) →
  importerExtRE opts co s = true →
  importerExtRE opts' co' s = true.
Proof.
  unfold importerExtRE. intros [Hloose | [Hstrict Hjs]].
  - rewrite Hloose. cbn [negb].
    destruct (JS.truthyb (opt_loose opts)); cbn [negb]; [done|].
    destruct (JS.truthyb (allowJs co)).
    + apply jsExtRE_anyCharRE.
    + intros H. by apply jsExtRE_anyCharRE, tsExtRE_jsExtRE.
  - rewrite Hstrict. cbn [negb].
    destruct (JS.truthyb (opt_loose opts')); cbn [negb].
    + destruct (JS.truthyb (allowJs co)).
      * apply jsExtRE_anyCharRE.
      * intros H. by apply jsExtRE_anyCharRE, tsExtRE_jsExtRE.
    + destruct (JS.truthyb (allowJs co)).
      * by rewrite Hjs.
      * destruct (JS.truthyb (allowJs co')); [apply tsExtRE_jsExtRE | done].
Qed.

Lemma importerExtRE_widens_witness :
  importerExtRE
    {| opt_root := None; opt_projects := None; opt_extensions := None;
       opt_loose := Some true |}
    {| include := None; exclude := None; allowJs := None |}
    "/proj/src/main.ts" = true.
Proof.
  apply (importerExtRE_widens Sample.opts _
           {| include := None; exclude := None; allowJs := None |}).
  - left. reflexivity.
  - reflexivity.
Defined.

(** X16: for the resolver of a configuration and a plugin that is not in
    loose mode, importers are accepted by [.ts] and [.tsx] alone unless the
    configuration sets [allowJs] or [checkJs]: either of the two opens
    the resolver to the script and template extensions; in loose mode
    neither matters. *)
Theorem createResolver_importer_extensions (env : Env) (opts : PluginOptions)
    (p : string) (r : Resolver) :
  createResolver env p = Some r →
  let ts := loadTsconfig env (configFileAbsolutePath (config r)) in
  importerExtRE opts (compilerOptions r)
  = if JS.truthyb (opt_loose opts) then anyCharRE
    else if JS.truthyb (ts_allowJs ts) || JS.truthyb (ts_checkJs ts)
         then jsExtRE else tsExtRE.
Proof.
  rewrite createResolver_unfold.
  destruct (loadConfig env (configLocation p)) as [c | message];
    [| discriminate].
  intros [= <-]. cbn [config compilerOptions]. unfold importerExtRE,
    loadCompilerOptions. cbn [allowJs].
  destruct (JS.truthyb (opt_loose opts)); cbn [negb]; [reflexivity|].
  destruct (JS.truthyb (ts_allowJs (loadTsconfig env
                                      (configFileAbsolutePath c)))) eqn:Hjs.
  - by rewrite Hjs.
  - reflexivity.
Qed.

Lemma createResolver_importer_extensions_witness :
  importerExtRE Sample.opts (compilerOptions Sample.rootResolver) = tsExtRE.
Proof.
  apply (createResolver_importer_extensions Sample.env Sample.opts
           "/proj/tsconfig.json" Sample.rootResolver).
  reflexivity.
Defined.

(** ** Projects given, and projects that do not load *)

Lemma resolveProjects_cwd (env env' : Env) (root : string)
    (projects : list string) :
  cwd env = cwd env' →
  resolveProjects env root projects = resolveProjects env' root projects.
Proof.
  intros Hcwd. unfold resolveProjects.
  generalize (([], ∅) : list string * gmap string Z).
  induction projects as [|p l IH]; intros acc; [reflexivity|].
  cbn [foldl]. rewrite <- IH. f_equal.
  unfold resolveStep, resolveProject. by rewrite Hcwd.
Qed.

(** X17: when the options list the projects, [findProjects] does not
    crawl: its result is the same in every environment with the same
    working directory, whatever the crawl service and the other
    collaborators would answer. *)
Theorem findProjects_listed (env env' : Env) (opts : PluginOptions)
    (viteRoot : string) (projects : list string) :
  opt_projects opts = Some projects →
  cwd env = cwd env' →
  findProjects env opts viteRoot = findProjects env' opts viteRoot.
Proof.
  intros Hlisted Hcwd. unfold findProjects, listedProjects, crawlRoot.
  rewrite Hlisted, Hcwd.
  by rewrite (resolveProjects_cwd env env').
Qed.

Lemma findProjects_listed_witness :
  findProjects Sample.env Sample.twiceOpts "/proj"
  = findProjects
      {| cwd := "/proj";
         crawl := fun _ => ["elsewhere/tsconfig.json"];
         loadConfig := fun _ => ConfigFailed "";
         loadTsconfig := loadTsconfig Sample.env;
         createMatchPathAsync := fun _ _ _ _ _ _ => None;
         thisResolve := fun _ _ => None;
         globRex := fun _ _ => false |}
      Sample.twiceOpts "/proj".
Proof.
  apply (findProjects_listed _ _ Sample.twiceOpts "/proj"
           ["tsconfig.json"; "./tsconfig.json"]); reflexivity.
Defined.

Lemma omap_createResolver_nil (env : Env) (projects : list string) :
  Forall (λ p, configLoads env p = false) projects →
  omap (createResolver env) projects = [].
Proof.
  induction 1 as [|p l Hp Hl IH]; [reflexivity|].
  cbn [omap list_omap]. rewrite createResolver_configLoads in Hp.
  destruct (createResolver env p) as [r|].
  - by rewrite bool_decide_eq_true_2 in Hp by eauto.
  - exact IH.
Qed.

(** X18: when no project is found, or none of the configurations found
    loads, the plugin has no resolver, and its hook returns nothing for
    every specifier and importer without any attempt. *)
Theorem no_project_no_resolution (env : Env) (opts : PluginOptions)
    (viteRoot : string) :
  Forall (λ p, configLoads env p = false) (findProjects env opts viteRoot) →
  configResolved env opts viteRoot = []
  ∧ ∀ (id : string) (importer : option string),
      pluginResolveId env opts (configResolved env opts viteRoot) id importer
      = ((None, []), []).
Proof.
  intros Hnone.
  assert (Hempty : configResolved env opts viteRoot = []).
  { unfold configResolved. by rewrite omap_createResolver_nil. }
  split; [exact Hempty|]. intros id importer. rewrite Hempty.
  unfold pluginResolveId, resolveId.
  by destruct (JS.truthy importer && negb (relativeImportRE id)
               && negb (Posix.isAbsolute id)).
Qed.

Lemma no_project_no_resolution_witness :
  configResolved Sample.env
    {| opt_root := None; opt_projects := Some ["broken"];
       opt_extensions := None; opt_loose := None |} "/proj" = [].
Proof.
  apply (no_project_no_resolution Sample.env
           {| opt_root := None; opt_projects := Some ["broken"];
              opt_extensions := None; opt_loose := None |} "/proj").
  repeat constructor.
Defined.
